(** * Permutation feature importance (lynxes.core.global_interpretation)

    A shallow embedding of [FeatureImportance.feature_importance] and
    [FeatureImportance.plot_feature_importance] from
    [lynxes/core/global_interpretation/feature_importance.py].

    A Python float is a real number or one of the three IEEE special values.
    The result of an arithmetic operation is the real result when its
    magnitude is at most the largest binary64 number, and the infinity of its
    sign otherwise: overflow is part of the model.  The rounding of results
    inside that range, underflow and signed zeros are not; where rounding
    matters to a statement (a sum that is one), the statement allows for a
    tolerance.  Mutable objects (the pandas frames held by the data managers)
    live in an explicit heap, so that aliasing between the data set and its
    working copy is visible in the statements. *)

From Stdlib Require Import String Reals Lra Lia Arith List Sorted Permutation.
Import ListNotations.

(** ** Floats *)

Module Float.

Inductive float : Type :=
| Fin (r : R)
| PInf
| NInf
| NaN.

Definition is_nan (x : float) : bool :=
  match x with NaN => true | _ => false end.

Definition is_fin (x : float) : Prop :=
  match x with Fin _ => True | _ => False end.

Definition fneg (x : float) : float :=
  match x with
  | Fin r => Fin (- r)
  | PInf => NInf
  | NInf => PInf
  | NaN => NaN
  end.

(** The largest binary64 number. *)
Definition max_float : R := (2 - / 2 ^ 52) * 2 ^ 1023.

(** The float for the real result of an operation: the result itself, or an
    infinity when it overflows. *)
Definition of_real (r : R) : float :=
  if Rle_dec (Rabs r) max_float then Fin r
  else if Rlt_dec 0 r then PInf else NInf.

Definition fadd (x y : float) : float :=
  match x, y with
  | NaN, _ | _, NaN => NaN
  | Fin a, Fin b => of_real (a + b)
  | PInf, NInf | NInf, PInf => NaN
  | PInf, _ | _, PInf => PInf
  | NInf, _ | _, NInf => NInf
  end.

Definition fsub (x y : float) : float := fadd x (fneg y).

(** [r * inf] for a finite [r]: the sign of [r] decides, [0 * inf] is NaN. *)
Definition scale_inf (r : R) : float :=
  if Req_dec_T r 0 then NaN
  else if Rlt_dec 0 r then PInf else NInf.

Definition fmul (x y : float) : float :=
  match x, y with
  | NaN, _ | _, NaN => NaN
  | Fin a, Fin b => of_real (a * b)
  | Fin a, PInf | PInf, Fin a => scale_inf a
  | Fin a, NInf | NInf, Fin a => fneg (scale_inf a)
  | PInf, PInf | NInf, NInf => PInf
  | PInf, NInf | NInf, PInf => NInf
  end.

(** numpy's true division: [x / 0] is an infinity of the sign of [x],
    and [0 / 0] is NaN (a warning, never an exception). *)
Definition fdiv (x y : float) : float :=
  match x, y with
  | NaN, _ | _, NaN => NaN
  | Fin a, Fin b => if Req_dec_T b 0 then scale_inf a else of_real (a / b)
  | Fin _, PInf | Fin _, NInf => Fin 0
  | PInf, Fin b => if Rlt_dec b 0 then NInf else PInf
  | NInf, Fin b => if Rlt_dec b 0 then PInf else NInf
  | PInf, PInf | PInf, NInf | NInf, PInf | NInf, NInf => NaN
  end.

(** The root of a number in range is in range. *)
Definition fsqrt (x : float) : float :=
  match x with
  | Fin r => if Rlt_dec r 0 then NaN else Fin (sqrt r)
  | PInf => PInf
  | NInf | NaN => NaN
  end.

(** [x <= y]; every comparison with NaN is false. *)
Definition fleb (x y : float) : bool :=
  match x, y with
  | NaN, _ | _, NaN => false
  | Fin a, Fin b => if Rle_dec a b then true else false
  | NInf, _ | _, PInf => true
  | PInf, _ | _, NInf => false
  end.

Definition fle (x y : float) : Prop := fleb x y = true.

End Float.
Export Float.

(** ** numpy arrays of one or two dimensions *)

Module Np.

(** [Arr1 v] has shape [(length v,)]; [Arr2 c rows] has shape
    [(length rows, c)] and every row has [c] entries. *)
Inductive ndarray : Type :=
| Arr1 (v : list float)
| Arr2 (ncols : nat) (rows : list (list float)).

(** [a.shape[0]] *)
Definition shape0 (a : ndarray) : nat :=
  match a with
  | Arr1 v => length v
  | Arr2 _ rows => length rows
  end.

(** Broadcasting of one dimension: equal extents, or one of them is 1. *)
Definition bdim (a b : nat) : option nat :=
  if a =? b then Some a
  else if a =? 1 then Some b
  else if b =? 1 then Some a
  else None.

(** Entry [i] of a list that is stretched when its extent is 1. *)
Definition bnth {A : Type} (d : A) (l : list A) (i : nat) : A :=
  if length l =? 1 then nth 0 l d else nth i l d.

Definition sub_row (c : nat) (x y : list float) : list float :=
  map (fun j => fsub (bnth NaN x j) (bnth NaN y j)) (seq 0 c).

Definition sub_rows (r c : nat) (x y : list (list float)) : list (list float) :=
  map (fun i => sub_row c (bnth [] x i) (bnth [] y i)) (seq 0 r).

(** A one-dimensional operand meets a two-dimensional one as a single row. *)
Definition as_rows (a : ndarray) : nat * list (list float) :=
  match a with
  | Arr1 v => (length v, [v])
  | Arr2 c rows => (c, rows)
  end.

(** [a - b] with numpy's broadcasting; [None] is the ValueError
    "operands could not be broadcast together". *)
Definition subtract (a b : ndarray) : option ndarray :=
  match a, b with
  | Arr1 x, Arr1 y =>
      match bdim (length x) (length y) with
      | Some c => Some (Arr1 (sub_row c x y))
      | None => None
      end
  | _, _ =>
      let (ca, ra) := as_rows a in
      let (cb, rb) := as_rows b in
      match bdim (length ra) (length rb), bdim ca cb with
      | Some r, Some c => Some (Arr2 c (sub_rows r c ra rb))
      | _, _ => None
      end
  end.

(** [np.sum], [np.mean] and [np.std] of a flat list of numbers.  The mean
    of no numbers is [0 / 0], that is NaN. *)
Definition sum (l : list float) : float := fold_left fadd l (Fin 0).

Definition mean (l : list float) : float :=
  fdiv (sum l) (Fin (INR (length l))).

Definition std (l : list float) : float :=
  let m := mean l in
  fsqrt (mean (map (fun x => fmul (fsub x m) (fsub x m)) l)).

Definition column (j : nat) (rows : list (list float)) : list float :=
  map (fun r => nth j r NaN) rows.

(** [np.std(a, axis=0)]: a scalar for a one-dimensional array (kept as a
    list of one number), one number per column otherwise. *)
Definition std_axis0 (a : ndarray) : list float :=
  match a with
  | Arr1 v => [std v]
  | Arr2 c rows => map (fun j => std (column j rows)) (seq 0 c)
  end.

End Np.

(** ** Exceptions and the world the program runs in *)

Inductive exn : Type :=
| KeyError
| ValueError
| ReferenceError
| StopIteration
| ImportError
| RuntimeError
| MatplotlibUnavailableError (msg : string)
| MatplotlibDisplayError (msg : string)
| OtherError (name : string).

Inductive result (A : Type) : Type :=
| Ok (a : A)
| Raise (e : exn).
Arguments Ok {A} a.
Arguments Raise {A} e.

Definition fid := string.
Definition cell := float.
Definition loc := nat.

(** A pandas frame: row labels and named columns, in column order. *)
Record Frame : Type := mkFrame {
  frame_index : list nat;
  frame_columns : list (fid * list cell)
}.

(** Python dictionaries and frame columns, as ordered association lists:
    writing an existing key keeps its place, a new key goes last. *)
Section Assoc.
Variable V : Type.

Fixpoint assoc_get (k : fid) (d : list (fid * V)) : option V :=
  match d with
  | [] => None
  | (k', v) :: rest => if String.eqb k k' then Some v else assoc_get k rest
  end.

Fixpoint assoc_set (k : fid) (v : V) (d : list (fid * V)) : list (fid * V) :=
  match d with
  | [] => [(k, v)]
  | (k', v') :: rest =>
      if String.eqb k k' then (k, v) :: rest else (k', v') :: assoc_set k v rest
  end.
End Assoc.
Arguments assoc_get {V} k d.
Arguments assoc_set {V} k v d.

(** The global numpy random generator: a source of numbers and a cursor. *)
Record RandomState : Type := mkRandomState {
  rs_source : nat -> nat;
  rs_pos : nat
}.

Record World : Type := mkWorld {
  heap : list Frame;
  random_state : RandomState;
  predict_calls : list (loc * Frame)
}.

(** State and exceptions. *)
Definition M (A : Type) : Type := World -> result A * World.

Definition ret {A : Type} (a : A) : M A := fun w => (Ok a, w).

Definition raise {A : Type} (e : exn) : M A := fun w => (Raise e, w).

Definition bind {A B : Type} (m : M A) (k : A -> M B) : M B :=
  fun w =>
    match m w with
    | (Ok a, w') => k a w'
    | (Raise e, w') => (Raise e, w')
    end.

Notation "x <- m ;; k" := (bind m (fun x => k))
  (at level 61, m at next level, right associativity).
Notation "m ;;; k" := (bind m (fun _ => k))
  (at level 61, right associativity).

Definition lift {A : Type} (r : result A) : M A := fun w => (r, w).

(** ** The data manager *)

Record DataManager : Type := mkDataManager {
  data : loc;
  feature_ids : list fid;
  index : list nat
}.

Definition read_frame (l : loc) : M Frame :=
  fun w =>
    match nth_error (heap w) l with
    | Some fr => (Ok fr, w)
    | None => (Raise ReferenceError, w)
    end.

Fixpoint update_nth {A : Type} (i : nat) (x : A) (l : list A) : list A :=
  match l, i with
  | [], _ => []
  | _ :: t, 0 => x :: t
  | h :: t, S j => h :: update_nth j x t
  end.

Definition write_frame (l : loc) (fr : Frame) : M unit :=
  fun w =>
    (Ok tt, {| heap := update_nth l fr (heap w);
               random_state := random_state w;
               predict_calls := predict_calls w |}).

(** Modelled from the spec: the constructor [DataManager(X, feature_names,
    index)] of [lynxes.data], which is not part of the sources at hand.  The
    spec asks for "a working copy of the dataset (independent storage;
    mutations to it must not affect the original)": the new manager owns a
    fresh frame with the contents of [X]. *)
Definition DataManager_init (X : loc) (feature_names : list fid)
    (index : list nat) : M DataManager :=
  fun w =>
    match nth_error (heap w) X with
    | None => (Raise ReferenceError, w)
    | Some fr =>
        (Ok {| data := length (heap w);
               feature_ids := feature_names;
               index := index |},
         {| heap := heap w ++ [{| frame_index := index;
                                  frame_columns := frame_columns fr |}];
            random_state := random_state w;
            predict_calls := predict_calls w |})
    end.

(** Modelled from the spec: [DataManager.__getitem__], "read a column's
    values"; a missing column is a [KeyError]. *)
Definition getitem (dm : DataManager) (key : fid) : M (list cell) :=
  fr <- read_frame (data dm) ;;
  match assoc_get key (frame_columns fr) with
  | Some col => ret col
  | None => raise KeyError
  end.

(** Modelled from the spec: [DataManager.__setitem__], "write/replace a
    column's values".  The table stays rectangular: values of another length
    than the row index are a [ValueError]. *)
Definition setitem (dm : DataManager) (key : fid) (newval : list cell) : M unit :=
  fr <- read_frame (data dm) ;;
  if length newval =? length (frame_index fr)
  then write_frame (data dm)
         {| frame_index := frame_index fr;
            frame_columns := assoc_set key newval (frame_columns fr) |}
  else raise ValueError.

(** [n] draws with replacement from the values of a column. *)
Fixpoint draws (col : list cell) (n : nat) (rs : RandomState)
    : list cell * RandomState :=
  match n with
  | 0 => ([], rs)
  | S k =>
      let i := Nat.modulo (rs_source rs (rs_pos rs)) (length col) in
      let (rest, rs') :=
        draws col k {| rs_source := rs_source rs; rs_pos := S (rs_pos rs) |} in
      (nth i col NaN :: rest, rs')
  end.

Definition random_choice (col : list cell) (n : nat) (rs : RandomState)
    : result (list cell * RandomState) :=
  match col, n with
  | [], S _ => Raise ValueError
  | _, _ => Ok (draws col n rs)
  end.

(** Modelled from the spec: [DataManager.generate_column_sample] with
    [method='random-choice'], "uniform random choice with replacement over
    the original column's observed values". *)
Definition generate_column_sample (dm : DataManager) (feature_id : fid)
    (n_samples : nat) : M (list cell) :=
  col <- getitem dm feature_id ;;
  fun w =>
    match random_choice col n_samples (random_state w) with
    | Raise e => (Raise e, w)
    | Ok (samples, rs') =>
        (Ok samples, {| heap := heap w;
                        random_state := rs';
                        predict_calls := predict_calls w |})
    end.

(** ** The model *)

Record Model : Type := mkModel {
  predict : Frame -> result Np.ndarray
}.

(** [model_instance.predict(dm.data)]: the call is recorded with the frame
    object it received and that frame's contents at the time. *)
Definition predict_on (model_instance : Model) (l : loc) : M Np.ndarray :=
  fr <- read_frame l ;;
  fun w =>
    (predict model_instance fr,
     {| heap := heap w;
        random_state := random_state w;
        predict_calls := predict_calls w ++ [(l, fr)] |}).

Definition np_subtract (a b : Np.ndarray) : M Np.ndarray :=
  match Np.subtract a b with
  | Some c => ret c
  | None => raise ValueError
  end.

(** ** pandas series *)

Definition Series : Type := list (fid * float).

(** [pd.Series(d)] of a dictionary. *)
Definition pd_Series (d : list (fid * float)) : Series := d.

Fixpoint insert_sorted (leb : float -> float -> bool) (x : fid * float)
    (l : Series) : Series :=
  match l with
  | [] => [x]
  | y :: t =>
      if leb (snd x) (snd y) then x :: l else y :: insert_sorted leb x t
  end.

Definition sort_by (leb : float -> float -> bool) (l : Series) : Series :=
  fold_right (insert_sorted leb) [] l.

(** [s.sort_values(ascending=...)]: NaN entries go last in either direction.
    The order among equal scores is pandas' business; here it is the one of
    insertion sort. *)
Definition sort_values (ascending : bool) (s : Series) : Series :=
  let nans := filter (fun kv => is_nan (snd kv)) s in
  let vals := filter (fun kv => negb (is_nan (snd kv))) s in
  sort_by (if ascending then fleb else fun a b => fleb b a) vals ++ nans.

(** [s.sum()]: NaN entries are skipped. *)
Definition series_sum (s : Series) : float :=
  Np.sum (filter (fun x => negb (is_nan x)) (map snd s)).

(** [s / x] *)
Definition series_div (s : Series) (x : float) : Series :=
  map (fun kv => (fst kv, fdiv (snd kv) x)) s.

(** ** FeatureImportance *)

Record FeatureImportance : Type := mkFeatureImportance {
  data_set : DataManager
}.

(** One round of the loop over the features (lines 70 to 86). *)
Definition perturb_and_score (self : FeatureImportance) (model_instance : Model)
    (copy_of_data_set : DataManager) (n : nat)
    (original_predictions : Np.ndarray) (feature_id : fid)
    (importances : list (fid * float)) : M (list (fid * float)) :=
  samples <- generate_column_sample (data_set self) feature_id n ;;
  setitem copy_of_data_set feature_id samples ;;;
  new_predictions <- predict_on model_instance (data copy_of_data_set) ;;
  changes_in_predictions <- np_subtract new_predictions original_predictions ;;
  let importance := Np.mean (Np.std_axis0 changes_in_predictions) in
  let importances := assoc_set feature_id importance importances in
  column <- getitem (data_set self) feature_id ;;
  setitem copy_of_data_set feature_id column ;;;
  ret importances.

Fixpoint for_features (self : FeatureImportance) (model_instance : Model)
    (copy_of_data_set : DataManager) (n : nat)
    (original_predictions : Np.ndarray) (features : list fid)
    (importances : list (fid * float)) : M (list (fid * float)) :=
  match features with
  | [] => ret importances
  | feature_id :: rest =>
      importances' <- perturb_and_score self model_instance copy_of_data_set n
                        original_predictions feature_id importances ;;
      for_features self model_instance copy_of_data_set n
        original_predictions rest importances'
  end.

(** Lines 57 to 86: the dictionary of raw scores. *)
Definition raw_importances (self : FeatureImportance) (model_instance : Model)
    (y_true : option Np.ndarray) : M (list (fid * float)) :=
  original_predictions <-
    match y_true with
    | None => predict_on model_instance (data (data_set self))
    | Some y => ret y
    end ;;
  let n := Np.shape0 original_predictions in
  copy_of_data_set <- DataManager_init (data (data_set self))
                        (feature_ids (data_set self)) (index (data_set self)) ;;
  for_features self model_instance copy_of_data_set n original_predictions
    (feature_ids (data_set self)) [].

(** Lines 88 to 90: sort, then divide by the sum. *)
Definition normalize (ascending : bool) (importances : list (fid * float))
    : Series :=
  let importances := sort_values ascending (pd_Series importances) in
  series_div importances (series_sum importances).

Definition feature_importance (self : FeatureImportance) (model_instance : Model)
    (ascending : bool) (y_true : option Np.ndarray) : M Series :=
  importances <- raw_importances self model_instance y_true ;;
  ret (normalize ascending importances).

(** ** Plotting *)

Definition Color := string.
Definition Figure := nat.

Record Axes : Type := mkAxes {
  figure : Figure
}.

(** The plotting collaborators, as the method meets them: what the statement
    [from matplotlib import pyplot] does, [pyplot.subplots(1)], and the
    horizontal bar plot of a series on an axes. *)
Record Matplotlib : Type := mkMatplotlib {
  import_pyplot : result unit;
  subplots : result (Figure * Axes);
  plot_barh : Series -> Axes -> Color -> result unit
}.

Definition plot_feature_importance (mpl : Matplotlib) (COLORS : list Color)
    (self : FeatureImportance) (predict_fn : Model)
    (y_true : option Np.ndarray) (ascending : bool) (ax : option Axes)
    : M (Figure * Axes) :=
  match import_pyplot mpl with
  | Ok _ => ret tt
  | Raise ImportError =>
      raise (MatplotlibUnavailableError
               "Matplotlib is required but unavailable on your system.")
  | Raise RuntimeError =>
      raise (MatplotlibDisplayError "Matplotlib unable to open display")
  | Raise e => raise e
  end ;;;
  importances <- feature_importance self predict_fn ascending y_true ;;
  fa <- match ax with
        | None => lift (subplots mpl)
        | Some a => ret (figure a, a)
        end ;;
  color <- match COLORS with
           | [] => raise StopIteration
           | c :: _ => ret c
           end ;;
  (if ascending
   then lift (plot_barh mpl (sort_values false importances) (snd fa) color)
   else lift (plot_barh mpl (sort_values true importances) (snd fa) color)) ;;;
  ret fa.

(** ** The computation in the words of the specification *)

(** The data set with one column replaced. *)
Definition replace_column (feature_id : fid) (values : list cell) (fr : Frame)
    : Frame :=
  {| frame_index := frame_index fr;
     frame_columns := assoc_set feature_id values (frame_columns fr) |}.

(** The mean, across the prediction-output columns, of the standard deviation
    across rows of [predictions on the perturbed data - baseline]. *)
Definition spec_score (model : Model) (fr : Frame) (baseline : Np.ndarray)
    (feature_id : fid) (samples : list cell) : result float :=
  match predict model (replace_column feature_id samples fr) with
  | Raise e => Raise e
  | Ok new_predictions =>
      match Np.subtract new_predictions baseline with
      | None => Raise ValueError
      | Some delta => Ok (Np.mean (Np.std_axis0 delta))
      end
  end.

(** Every feature is scored against the same unperturbed data set [fr]. *)
Fixpoint spec_scores (model : Model) (fr : Frame) (baseline : Np.ndarray)
    (n : nat) (features : list fid) (rs : RandomState)
    (scores : list (fid * float)) : result (list (fid * float)) :=
  match features with
  | [] => Ok scores
  | feature_id :: rest =>
      match assoc_get feature_id (frame_columns fr) with
      | None => Raise KeyError
      | Some col =>
          let (samples, rs') := draws col n rs in
          match spec_score model fr baseline feature_id samples with
          | Raise e => Raise e
          | Ok score =>
              spec_scores model fr baseline n rest rs'
                (assoc_set feature_id score scores)
          end
      end
  end.

Definition baseline_of (model : Model) (fr : Frame) (y_true : option Np.ndarray)
    : result Np.ndarray :=
  match y_true with
  | Some y => Ok y
  | None => predict model fr
  end.

(** ** Well-formed inputs *)

(** A column of the frame with one value per row. *)
Definition column_ok (fr : Frame) (f : fid) : Prop :=
  exists col, assoc_get f (frame_columns fr) = Some col /\
              length col = length (frame_index fr).

(** The manager's row labels are the frame's, and its feature identifiers
    name columns of the frame. *)
Definition wf_dataset (ds : DataManager) (fr : Frame) : Prop :=
  index ds = frame_index fr /\ Forall (column_ok fr) (feature_ids ds).

(** An array with [n] rows whose entries all satisfy [P]; [sh] is [None] for
    a one-dimensional array and [Some c] for [c] output columns. *)
Definition array_all (P : float -> Prop) (n : nat) (sh : option nat)
    (a : Np.ndarray) : Prop :=
  match a, sh with
  | Np.Arr1 v, None => length v = n /\ Forall P v
  | Np.Arr2 c rows, Some c' =>
      c = c' /\ 1 <= c /\ length rows = n /\
      Forall (fun r => length r = c /\ Forall P r) rows
  | _, _ => False
  end.

(** An array of finite numbers. *)
Definition array_ok : nat -> option nat -> Np.ndarray -> Prop :=
  array_all is_fin.

(** An array of [n] rows and of the shape [sh], whatever its entries. *)
Definition has_shape : nat -> option nat -> Np.ndarray -> Prop :=
  array_all (fun _ => True).

(** A frame the method hands to [predict] for feature [f] (line 78): the
    data set with the column of [f] replaced by one value per row taken from
    that column. *)
Definition perturbed_frame (fr : Frame) (f : fid) (d : Frame) : Prop :=
  exists col samples,
    assoc_get f (frame_columns fr) = Some col /\
    length samples = length (frame_index fr) /\
    incl samples col /\
    d = replace_column f samples fr.

(** A valid call: the data set is well formed, the baseline (the targets, or
    the predictions on the data) has one row per row of the data, and on the
    frames the method hands to it [predict] returns an array of that shape.
    Nothing is asked of [predict] on other frames, nor of the numbers in the
    arrays. *)
Record valid_input (self : FeatureImportance) (model : Model)
    (y_true : option Np.ndarray) (w : World) (fr : Frame) (sh : option nat)
    : Prop := mkValid {
  valid_heap : nth_error (heap w) (data (data_set self)) = Some fr;
  valid_wf : wf_dataset (data_set self) fr;
  valid_baseline :
    exists b, baseline_of model fr y_true = Ok b /\
              has_shape (length (frame_index fr)) sh b;
  valid_predict :
    forall f d, In f (feature_ids (data_set self)) ->
      perturbed_frame fr f d ->
      exists a, predict model d = Ok a /\
                has_shape (length (frame_index fr)) sh a
}.

(** ** Auxiliary notions *)



Definition is_zero (x : float) : Prop := x = Fin 0.

(** A float that is not negative: a finite number from zero up, the positive
    infinity, or NaN. *)
Definition not_negative (x : float) : Prop :=
  match x with
  | Fin v => (0 <= v)%R
  | PInf | NaN => True
  | NInf => False
  end.

(** A float within the range of the floats: of no larger magnitude than the
    largest one when it is finite. *)
Definition in_range (x : float) : Prop :=
  forall v, x = Fin v -> (Rabs v <= max_float)%R.


(** The calls to [predict] made for the baseline: one on the data set's own
    frame when no targets are given, none otherwise. *)
Definition baseline_calls (self : FeatureImportance) (fr : Frame)
    (y_true : option Np.ndarray) : list (loc * Frame) :=
  match y_true with
  | None => [(data (data_set self), fr)]
  | Some _ => []
  end.

(** Scores in the requested order: each one is [<=] the next when
    ascending, [>=] the next when descending. *)
Definition scores_in_order (ascending : bool) (l : list float) : Prop :=
  Sorted (if ascending then fle else fun a b => fle b a) l.


(** The score a feature ends up with is the score of the specification for
    samples drawn from that feature's own column. *)
Definition scored_as (model : Model) (fr : Frame) (b : Np.ndarray) (f : fid)
    (score : float) : Prop :=
  exists col samples new_predictions delta,
    assoc_get f (frame_columns fr) = Some col /\
    length samples = length (frame_index fr) /\
    incl samples col /\
    predict model (replace_column f samples fr) = Ok new_predictions /\
    Np.subtract new_predictions b = Some delta /\
    score = Np.mean (Np.std_axis0 delta).

(** A computation that writes to no frame but the one at [c], and frees
    none. *)
Definition writes_only {A : Type} (c : loc) (m : M A) : Prop :=
  forall w,
    length (heap w) <= length (heap (snd (m w))) /\
    forall l, l <> c -> l < length (heap w) ->
      nth_error (heap (snd (m w))) l = nth_error (heap w) l.

(** A computation whose exceptions all satisfy [P]. *)
Definition raises_only {A : Type} (P : exn -> Prop) (m : M A) : Prop :=
  forall w e, fst (m w) = Raise e -> P e.

(** The exceptions of the computation itself, and those of [predict]. *)
Definition own_or_predict (model : Model) (e : exn) : Prop :=
  e = KeyError \/ e = ValueError \/ e = ReferenceError \/
  exists d, predict model d = Raise e.

Definition is_matplotlib_error (e : exn) : Prop :=
  match e with
  | MatplotlibUnavailableError _ | MatplotlibDisplayError _ => True
  | _ => False
  end.

(** ** Sample inputs *)

Definition toy_frame : Frame :=
  {| frame_index := [0; 1];
     frame_columns := [("a"%string, [Fin 0; Fin 1]);
                       ("b"%string, [Fin 5; Fin 5])] |}.

Definition toy_data : DataManager :=
  {| data := 0; feature_ids := ["a"%string; "b"%string]; index := [0; 1] |}.

Definition toy_self : FeatureImportance := {| data_set := toy_data |}.

Definition toy_world : World :=
  {| heap := [toy_frame];
     random_state := {| rs_source := fun _ => 1; rs_pos := 0 |};
     predict_calls := [] |}.

(** A model that predicts zero for every row, whatever the data. *)
Definition constant_model : Model :=
  {| predict := fun _ => Ok (Np.Arr1 [Fin 0; Fin 0]) |}.

(** A model that returns feature [a] unchanged. *)
Definition column_a_model : Model :=
  {| predict := fun fr =>
       match assoc_get "a"%string (frame_columns fr) with
       | Some col => Ok (Np.Arr1 col)
       | None => Raise KeyError
       end |}.

(** The world in the middle of the loop: the working copy is the frame at
    location 1. *)
Definition toy_copy : DataManager :=
  {| data := 1; feature_ids := ["a"%string; "b"%string]; index := [0; 1] |}.

Definition toy_world_in_loop : World :=
  {| heap := [toy_frame; toy_frame];
     random_state := {| rs_source := fun _ => 1; rs_pos := 0 |};
     predict_calls := [] |}.

(** A data set with two rows and no feature at all. *)
Definition bare_frame : Frame :=
  {| frame_index := [0; 1]; frame_columns := [] |}.

Definition bare_self : FeatureImportance :=
  {| data_set := {| data := 0; feature_ids := []; index := [0; 1] |} |}.

Definition bare_world : World :=
  {| heap := [bare_frame];
     random_state := {| rs_source := fun _ => 1; rs_pos := 0 |};
     predict_calls := [] |}.

(** Matplotlib that is not installed, and Matplotlib without a display. *)
Definition matplotlib_missing : Matplotlib :=
  {| import_pyplot := Raise ImportError;
     subplots := Raise ImportError;
     plot_barh := fun _ _ _ => Raise ImportError |}.

Definition matplotlib_headless : Matplotlib :=
  {| import_pyplot := Raise RuntimeError;
     subplots := Raise RuntimeError;
     plot_barh := fun _ _ _ => Raise RuntimeError |}.

Definition toy_y_true : Np.ndarray := Np.Arr1 [Fin 0; Fin 2].

(** A model that predicts the largest float for the first row and its
    opposite for the second, and targets that are zero. *)
Definition huge_model : Model :=
  {| predict := fun _ => Ok (Np.Arr1 [Fin max_float; Fin (- max_float)]) |}.

Definition zero_targets : Np.ndarray := Np.Arr1 [Fin 0; Fin 0].

(** ** Notions for the further properties *)

(** A recorded call made for feature [f]: [predict] received the working
    copy, holding the data set with the column of [f], and no other, replaced
    by one value per row taken from that column, and returned normally. *)
Definition perturbed_call (model : Model) (fr : Frame) (copy : loc) (f : fid)
    (c : loc * Frame) : Prop :=
  fst c = copy /\
  exists col samples a,
    assoc_get f (frame_columns fr) = Some col /\
    length samples = length (frame_index fr) /\
    incl samples col /\
    snd c = replace_column f samples fr /\
    predict model (snd c) = Ok a.

(** What makes a round fail with [e]: [predict] raised [e] on the data set
    with one feature perturbed, or it returned an array that does not
    broadcast against the baseline and [e] is the [ValueError] of the
    subtraction. *)
Definition round_failure (model : Model) (fr : Frame) (b : Np.ndarray)
    (features : list fid) (e : exn) : Prop :=
  exists f samples,
    In f features /\
    (predict model (replace_column f samples fr) = Raise e \/
     (e = ValueError /\
      exists a, predict model (replace_column f samples fr) = Ok a /\
                Np.subtract a b = None)).

(** Lines 132 to 145: what the plot does with the scores once it has
    them. *)
Definition draw_chart (mpl : Matplotlib) (COLORS : list Color)
    (ascending : bool) (ax : option Axes) (importances : Series)
    : M (Figure * Axes) :=
  fa <- match ax with
        | None => lift (subplots mpl)
        | Some a => ret (figure a, a)
        end ;;
  color <- match COLORS with
           | [] => raise StopIteration
           | c :: _ => ret c
           end ;;
  (if ascending
   then lift (plot_barh mpl (sort_values false importances) (snd fa) color)
   else lift (plot_barh mpl (sort_values true importances) (snd fa) color)) ;;;
  ret fa.




(** A model that always fails. *)
Definition failing_model : Model :=
  {| predict := fun _ => Raise (OtherError "model failure") |}.

(** Matplotlib installed, with a display. *)
Definition matplotlib_ok : Matplotlib :=
  {| import_pyplot := Ok tt;
     subplots := Ok (0, {| figure := 0 |});
     plot_barh := fun _ _ _ => Ok tt |}.

(** ** Facts about the arithmetic *)

Lemma max_float_ge_1024 : (1024 <= max_float)%R.
Proof.
  unfold max_float.
  assert (Hp : (0 < 2 ^ 52)%R) by (apply pow_lt; lra).
  assert (Hi : (/ 2 ^ 52 <= 1)%R).
  { rewrite <- Rinv_1. apply Rinv_le_contravar; [lra|].
    apply pow_R1_Rle. lra. }
  assert (Hb : (2 ^ 10 <= 2 ^ 1023)%R) by (apply Rle_pow; [lra | lia]).
  assert (H10 : (2 ^ 10 = 1024)%R) by (simpl; lra).
  rewrite H10 in Hb. nra.
Qed.

Lemma max_float_ge_4 : (4 <= max_float)%R.
Proof.
  pose proof max_float_ge_1024. lra.
Qed.

Lemma of_real_fin (r : R) : (Rabs r <= max_float)%R -> of_real r = Fin r.
Proof.
  intros H. unfold of_real. destruct (Rle_dec (Rabs r) max_float);
    [reflexivity | contradiction].
Qed.

(** Numbers up to 1024 are well within range. *)
Lemma of_real_eq (r v : R) :
  r = v -> (- 1024 <= v <= 1024)%R -> of_real r = Fin v.
Proof.
  intros -> Hv. apply of_real_fin. pose proof max_float_ge_1024.
  apply Rabs_le. lra.
Qed.

Lemma of_real_range (r v : R) :
  of_real r = Fin v -> v = r /\ (Rabs r <= max_float)%R.
Proof.
  unfold of_real. destruct (Rle_dec (Rabs r) max_float) as [H|H].
  - intros [= <-]. split; [reflexivity | exact H].
  - destruct (Rlt_dec 0 r); discriminate.
Qed.

Lemma of_real_big (r : R) : (max_float < r)%R -> of_real r = PInf.
Proof.
  intros H. pose proof max_float_ge_4 as H4. unfold of_real.
  destruct (Rle_dec (Rabs r) max_float) as [Hle|_].
  - rewrite Rabs_right in Hle by lra. lra.
  - destruct (Rlt_dec 0 r); [reflexivity | lra].
Qed.

Lemma of_real_not_negative (r : R) : (0 <= r)%R -> not_negative (of_real r).
Proof.
  intros H. unfold of_real. destruct (Rle_dec (Rabs r) max_float).
  - exact H.
  - destruct (Rlt_dec 0 r) as [_|Hn]; [exact I|].
    (* [r] is then zero, which does not overflow *)
    exfalso. assert (r = 0%R) by lra. subst r. rewrite Rabs_R0 in n.
    pose proof max_float_ge_4. lra.
Qed.

Lemma INR_length_pos (A : Type) (l : list A) : l <> [] -> (0 < INR (length l))%R.
Proof.
  destruct l; [congruence|]. intros _. apply lt_0_INR. simpl; lia.
Qed.


(** *** Zeros *)


Lemma fold_fadd_zero (l : list float) :
  Forall is_zero l -> fold_left fadd l (Fin 0) = Fin 0.
Proof.
  induction 1 as [|x l Hx _ IH]; simpl; [reflexivity|].
  rewrite Hx. simpl. rewrite (of_real_eq (0 + 0) 0) by lra. exact IH.
Qed.

Lemma sum_zero (l : list float) : Forall is_zero l -> Np.sum l = Fin 0.
Proof.
  apply fold_fadd_zero.
Qed.

Lemma mean_zero (l : list float) :
  l <> [] -> Forall is_zero l -> is_zero (Np.mean l).
Proof.
  intros Hne H. unfold is_zero, Np.mean. rewrite (sum_zero _ H). simpl.
  pose proof (INR_length_pos _ _ Hne).
  destruct (Req_dec_T (INR (length l)) 0); [lra|].
  apply of_real_eq; [|lra]. unfold Rdiv. apply Rmult_0_l.
Qed.

Lemma std_zero (l : list float) :
  l <> [] -> Forall is_zero l -> is_zero (Np.std l).
Proof.
  intros Hne H. unfold is_zero, Np.std. rewrite (mean_zero _ Hne H).
  assert (Hz : Forall is_zero
                 (map (fun x => fmul (fsub x (Fin 0)) (fsub x (Fin 0))) l)).
  { apply Forall_forall. intros y Hy. apply in_map_iff in Hy.
    destruct Hy as [x [<- Hx]]. rewrite Forall_forall in H.
    rewrite (H x Hx). unfold is_zero, fsub. simpl.
    rewrite (of_real_eq (0 + - 0) 0) by lra. simpl.
    apply of_real_eq; lra. }
  assert (Hne' : map (fun x => fmul (fsub x (Fin 0)) (fsub x (Fin 0))) l <> []).
  { destruct l; simpl; congruence. }
  rewrite (mean_zero _ Hne' Hz). simpl.
  destruct (Rlt_dec 0 0); [lra|]. f_equal. apply sqrt_0.
Qed.

(** *** Nothing negative comes out of a standard deviation *)

Lemma fmul_self_not_negative (d : float) : not_negative (fmul d d).
Proof.
  destruct d as [a| | |]; simpl; try exact I.
  apply of_real_not_negative. apply (Rle_0_sqr a).
Qed.

Lemma fadd_not_negative (x y : float) :
  not_negative x -> not_negative y -> not_negative (fadd x y).
Proof.
  destruct x as [a| | |], y as [b| | |]; simpl; try tauto.
  intros Ha Hb. apply of_real_not_negative. lra.
Qed.

Lemma fold_fadd_not_negative (l : list float) (acc : float) :
  not_negative acc -> Forall not_negative l ->
  not_negative (fold_left fadd l acc).
Proof.
  intros Hacc H. revert acc Hacc.
  induction H as [|x l Hx _ IH]; intros acc Hacc; simpl; [exact Hacc|].
  apply IH. apply fadd_not_negative; assumption.
Qed.

Lemma mean_not_negative (l : list float) :
  Forall not_negative l -> not_negative (Np.mean l).
Proof.
  intros H. unfold Np.mean, Np.sum.
  pose proof (fold_fadd_not_negative l (Fin 0) (Rle_refl 0) H) as Hs.
  pose proof (pos_INR (length l)) as Hn.
  destruct (fold_left fadd l (Fin 0)) as [a| | |]; simpl in *; try tauto.
  - destruct (Req_dec_T (INR (length l)) 0) as [E|E].
    + unfold scale_inf. destruct (Req_dec_T a 0); [exact I|].
      destruct (Rlt_dec 0 a); [exact I | lra].
    + apply of_real_not_negative. apply Rmult_le_pos; [exact Hs|].
      left. apply Rinv_0_lt_compat. lra.
  - destruct (Rlt_dec (INR (length l)) 0); [lra | exact I].
Qed.

Lemma fsqrt_not_negative (x : float) : not_negative x -> not_negative (fsqrt x).
Proof.
  destruct x as [a| | |]; simpl; try tauto.
  intros Ha. destruct (Rlt_dec a 0); [exact I | apply sqrt_pos].
Qed.

(** Whatever the numbers, their standard deviation is not negative. *)
Lemma std_not_negative (l : list float) : not_negative (Np.std l).
Proof.
  unfold Np.std. apply fsqrt_not_negative. apply mean_not_negative.
  apply Forall_forall. intros y Hy. apply in_map_iff in Hy.
  destruct Hy as [x [<- _]]. apply fmul_self_not_negative.
Qed.

(** *** Sums of numbers that are not negative *)







(** ** Facts about arrays *)

Lemma bnth_nth (A : Type) (d : A) (l : list A) (i : nat) :
  i < length l -> Np.bnth d l i = nth i l d.
Proof.
  intros Hi. unfold Np.bnth. destruct (Nat.eqb_spec (length l) 1) as [E|E].
  - replace i with 0 by lia. reflexivity.
  - reflexivity.
Qed.

Lemma bdim_refl (n : nat) : Np.bdim n n = Some n.
Proof.
  unfold Np.bdim. rewrite Nat.eqb_refl. reflexivity.
Qed.

Lemma Forall_nth_fin (P : float -> Prop) (l : list float) (j : nat) :
  Forall P l -> j < length l -> P (nth j l NaN).
Proof.
  intros H Hj. rewrite Forall_forall in H. apply H. apply nth_In. exact Hj.
Qed.

Lemma sub_row_all (Q : float -> Prop) (c : nat) (x y : list float) :
  length x = c -> length y = c ->
  (forall j, j < c -> Q (fsub (nth j x NaN) (nth j y NaN))) ->
  length (Np.sub_row c x y) = c /\ Forall Q (Np.sub_row c x y).
Proof.
  intros Hx Hy H. unfold Np.sub_row. split.
  - rewrite length_map, length_seq. reflexivity.
  - apply Forall_forall. intros z Hz. apply in_map_iff in Hz.
    destruct Hz as [j [<- Hj]]. apply in_seq in Hj.
    rewrite !bnth_nth by lia. apply H. lia.
Qed.

Lemma fsub_self (x : float) : is_fin x -> is_zero (fsub x x).
Proof.
  destruct x; simpl; try tauto. intros _. unfold is_zero.
  apply of_real_eq; lra.
Qed.

Lemma sub_rows_all (Q : float -> Prop) (r c : nat) (X Y : list (list float)) :
  length X = r -> length Y = r ->
  (forall i, i < r ->
     length (Np.sub_row c (nth i X []) (nth i Y [])) = c /\
     Forall Q (Np.sub_row c (nth i X []) (nth i Y []))) ->
  length (Np.sub_rows r c X Y) = r /\
  Forall (fun row => length row = c /\ Forall Q row) (Np.sub_rows r c X Y).
Proof.
  intros HX HY H. unfold Np.sub_rows. split.
  - rewrite length_map, length_seq. reflexivity.
  - apply Forall_forall. intros z Hz. apply in_map_iff in Hz.
    destruct Hz as [i [<- Hi]]. apply in_seq in Hi.
    rewrite !bnth_nth by lia. apply H. lia.
Qed.

Lemma Forall_nth_row (P : list float -> Prop) (l : list (list float)) (i : nat) :
  Forall P l -> i < length l -> P (nth i l []).
Proof.
  intros H Hi. rewrite Forall_forall in H. apply H. apply nth_In. exact Hi.
Qed.

(** Arrays of one shape subtract entry by entry, whatever the shape. *)
Lemma subtract_all (P Q : float -> Prop) (n : nat) (sh : option nat)
    (a b : Np.ndarray) :
  array_all P n sh a -> array_all P n sh b ->
  (forall x y, P x -> P y -> (a = b -> x = y) -> Q (fsub x y)) ->
  exists d, Np.subtract a b = Some d /\ array_all Q n sh d.
Proof.
  intros Ha Hb HQ. destruct a as [x|ca X], b as [y|cb Y], sh as [c|];
    simpl in Ha, Hb; try contradiction.
  - destruct Ha as [Hlx Hx], Hb as [Hly Hy]. simpl.
    rewrite Hlx, Hly, bdim_refl. eexists; split; [reflexivity|]. simpl.
    apply sub_row_all; try assumption.
    intros j Hj. apply HQ.
    + apply Forall_nth_fin; [assumption|lia].
    + apply Forall_nth_fin; [assumption|lia].
    + intros E. injection E as ->. reflexivity.
  - destruct Ha as [-> [Hc [HlX HX]]], Hb as [-> [_ [HlY HY]]]. simpl.
    rewrite HlX, HlY, !bdim_refl. eexists; split; [reflexivity|]. simpl.
    split; [reflexivity|]. split; [assumption|].
    apply sub_rows_all; try assumption.
    intros i Hi.
    pose proof (Forall_nth_row _ X i HX ltac:(lia)) as [Hlx Hx].
    pose proof (Forall_nth_row _ Y i HY ltac:(lia)) as [Hly Hy].
    apply sub_row_all; try assumption.
    intros j Hj. apply HQ.
    + apply Forall_nth_fin; [assumption|lia].
    + apply Forall_nth_fin; [assumption|lia].
    + intros E. injection E as ->. reflexivity.
Qed.

(** Arrays of one shape subtract, whatever their entries. *)
Lemma subtract_shape (n : nat) (sh : option nat) (a b : Np.ndarray) :
  has_shape n sh a -> has_shape n sh b ->
  exists d, Np.subtract a b = Some d /\ has_shape n sh d.
Proof.
  intros Ha Hb. apply (subtract_all (fun _ => True) (fun _ => True) n sh a b Ha Hb).
  intros x y _ _ _. exact I.
Qed.

Lemma subtract_self (n : nat) (sh : option nat) (a : Np.ndarray) :
  array_ok n sh a ->
  exists d, Np.subtract a a = Some d /\ array_all is_zero n sh d.
Proof.
  intros Ha. apply (subtract_all is_fin is_zero n sh a a Ha Ha).
  intros x y Hx _ E. rewrite <- (E eq_refl). apply fsub_self; assumption.
Qed.

Lemma column_all (P : float -> Prop) (c j : nat) (rows : list (list float)) :
  j < c -> Forall (fun r => length r = c /\ Forall P r) rows ->
  Forall P (Np.column j rows).
Proof.
  intros Hj H. unfold Np.column. apply Forall_forall. intros z Hz.
  apply in_map_iff in Hz. destruct Hz as [r [<- Hr]].
  rewrite Forall_forall in H. destruct (H r Hr) as [Hl HP].
  apply Forall_nth_fin; [assumption|lia].
Qed.

(** The score of an array is not negative, whatever the array. *)
Lemma score_not_negative (d : Np.ndarray) :
  not_negative (Np.mean (Np.std_axis0 d)).
Proof.
  apply mean_not_negative. destruct d as [v|c rows]; simpl.
  - constructor; [apply std_not_negative | constructor].
  - apply Forall_forall. intros z Hz. apply in_map_iff in Hz.
    destruct Hz as [j [<- _]]. apply std_not_negative.
Qed.

(** The score of an array: what P holds of its columns' deviations holds of
    their mean. *)
Lemma score_all (P Q : float -> Prop) (n : nat) (sh : option nat)
    (d : Np.ndarray) :
  (forall l, l <> [] -> Forall P l -> Q (Np.std l)) ->
  (forall l, l <> [] -> Forall Q l -> Q (Np.mean l)) ->
  1 <= n -> array_all P n sh d -> Q (Np.mean (Np.std_axis0 d)).
Proof.
  intros Hstd Hmean Hn Hd. destruct d as [v|c rows], sh as [c'|];
    simpl in Hd; try contradiction.
  - destruct Hd as [Hl Hv]. simpl. apply Hmean; [congruence|].
    constructor; [|constructor]. apply Hstd; [|assumption].
    destruct v; simpl in *; [lia|congruence].
  - destruct Hd as [-> [Hc [Hl Hrows]]]. simpl. apply Hmean.
    + destruct c'; [lia|]. simpl. congruence.
    + apply Forall_forall. intros z Hz. apply in_map_iff in Hz.
      destruct Hz as [j [<- Hj]]. apply in_seq in Hj. apply Hstd.
      * unfold Np.column. destruct rows; simpl in *; [lia|congruence].
      * apply (column_all _ c'); [lia|assumption].
Qed.

Lemma score_zero (n : nat) (sh : option nat) (d : Np.ndarray) :
  1 <= n -> array_all is_zero n sh d -> is_zero (Np.mean (Np.std_axis0 d)).
Proof.
  apply (score_all is_zero is_zero); [apply std_zero | apply mean_zero].
Qed.

(** ** Facts about association lists and the heap *)

Lemma assoc_set_restore (V : Type) (k : fid) (v v' : V) (d : list (fid * V)) :
  assoc_get k d = Some v -> assoc_set k v (assoc_set k v' d) = d.
Proof.
  induction d as [|[k0 v0] d IH]; simpl; [discriminate|].
  destruct (String.eqb_spec k k0) as [->|Hne]; simpl.
  - intros [= ->]. rewrite String.eqb_refl. reflexivity.
  - intros H. destruct (String.eqb_spec k k0); [contradiction|].
    rewrite (IH H). reflexivity.
Qed.

Lemma assoc_set_keys (V : Type) (k k' : fid) (v : V) (d : list (fid * V)) :
  In k' (map fst (assoc_set k v d)) <-> k' = k \/ In k' (map fst d).
Proof.
  induction d as [|[k0 v0] d IH]; simpl.
  - intuition congruence.
  - destruct (String.eqb_spec k k0) as [->|Hne]; simpl.
    + intuition congruence.
    + rewrite IH. intuition congruence.
Qed.

Lemma assoc_set_values (V : Type) (P : V -> Prop) (k : fid) (v : V)
    (d : list (fid * V)) :
  P v -> Forall (fun kv => P (snd kv)) d ->
  Forall (fun kv => P (snd kv)) (assoc_set k v d).
Proof.
  intros Hv. induction 1 as [|[k0 v0] d H0 Hd IH]; simpl.
  - constructor; [exact Hv | constructor].
  - destruct (String.eqb k k0); constructor; assumption.
Qed.

Lemma update_nth_restore (A : Type) (i : nat) (x y : A) (l : list A) :
  nth_error l i = Some x -> update_nth i x (update_nth i y l) = l.
Proof.
  revert i; induction l as [|h t IH]; intros [|i]; simpl; try discriminate.
  - intros [= ->]. reflexivity.
  - intros H. rewrite (IH _ H). reflexivity.
Qed.

Lemma nth_error_update_eq (A : Type) (i : nat) (x y : A) (l : list A) :
  nth_error l i = Some y -> nth_error (update_nth i x l) i = Some x.
Proof.
  revert i; induction l as [|h t IH]; intros [|i]; simpl; try discriminate.
  - reflexivity.
  - apply IH.
Qed.

Lemma nth_error_update_ne (A : Type) (i j : nat) (x : A) (l : list A) :
  i <> j -> nth_error (update_nth i x l) j = nth_error l j.
Proof.
  revert i j; induction l as [|h t IH]; intros [|i] [|j] Hne; simpl;
    try reflexivity; try congruence.
  apply IH. congruence.
Qed.

Lemma length_update_nth (A : Type) (i : nat) (x : A) (l : list A) :
  length (update_nth i x l) = length l.
Proof.
  revert i; induction l as [|h t IH]; intros [|i]; simpl; try reflexivity.
  rewrite IH. reflexivity.
Qed.

Lemma length_draws (col : list cell) (n : nat) (rs : RandomState) :
  length (fst (draws col n rs)) = n.
Proof.
  revert rs; induction n as [|n IH]; intros rs; simpl; [reflexivity|].
  specialize (IH {| rs_source := rs_source rs; rs_pos := S (rs_pos rs) |}).
  destruct (draws col n _) as [rest rs']. simpl in *. congruence.
Qed.

Lemma draws_incl (col : list cell) (n : nat) (rs : RandomState) :
  col <> [] -> incl (fst (draws col n rs)) col.
Proof.
  intros Hne. revert rs. induction n as [|n IH]; intros rs; simpl.
  - intros x [].
  - specialize (IH {| rs_source := rs_source rs; rs_pos := S (rs_pos rs) |}).
    destruct (draws col n _) as [rest rs']. simpl in *.
    intros x [<-|Hx]; [|apply IH; exact Hx].
    apply nth_In. apply Nat.mod_upper_bound.
    destruct col; simpl; [congruence | lia].
Qed.

(** The samples for a column with one value per row are values of that
    column. *)
Lemma draws_column (col : list cell) (n : nat) (rs : RandomState) :
  length col = n -> incl (fst (draws col n rs)) col.
Proof.
  intros Hlen. destruct col as [|c0 col'].
  - simpl in Hlen. rewrite <- Hlen. simpl. intros x [].
  - apply draws_incl. discriminate.
Qed.

Lemma random_choice_draws (col : list cell) (n : nat) (rs : RandomState) :
  length col = n -> random_choice col n rs = Ok (draws col n rs).
Proof.
  intros H. unfold random_choice. destruct col, n; simpl in *; congruence.
Qed.

Lemma replace_column_restore (f : fid) (col samples : list cell) (fr : Frame) :
  assoc_get f (frame_columns fr) = Some col ->
  replace_column f col (replace_column f samples fr) = fr.
Proof.
  intros H. destruct fr as [idx cols]. unfold replace_column; simpl in *.
  rewrite (@assoc_set_restore _ f col samples cols H). reflexivity.
Qed.

(** ** The loop, round by round *)

(** One round on a working copy that equals the data set: the score is the
    specification's, the call to [predict] is recorded, and the copy is
    restored when the round completes. *)
Lemma perturb_and_score_run (self : FeatureImportance) (model : Model)
    (copy : DataManager) (base : Np.ndarray) (f : fid)
    (imps : list (fid * float)) (w : World) (fr : Frame) (col : list cell) :
  nth_error (heap w) (data (data_set self)) = Some fr ->
  nth_error (heap w) (data copy) = Some fr ->
  data copy <> data (data_set self) ->
  assoc_get f (frame_columns fr) = Some col ->
  length col = length (frame_index fr) ->
  perturb_and_score self model copy (length (frame_index fr)) base f imps w =
    let fr' := replace_column f (fst (draws col (length (frame_index fr)) (random_state w))) fr in
    let rs' := snd (draws col (length (frame_index fr)) (random_state w)) in
    let calls := predict_calls w ++ [(data copy, fr')] in
    match spec_score model fr base f (fst (draws col (length (frame_index fr)) (random_state w))) with
    | Ok v =>
        (Ok (assoc_set f v imps),
         {| heap := heap w; random_state := rs'; predict_calls := calls |})
    | Raise e =>
        (Raise e,
         {| heap := update_nth (data copy) fr' (heap w);
            random_state := rs'; predict_calls := calls |})
    end.
Proof.
  intros Hself Hcopy Hne Hcol Hlen.
  unfold perturb_and_score, generate_column_sample, getitem, setitem,
    read_frame, predict_on, np_subtract, write_frame, bind, ret, raise, spec_score.
  rewrite Hself, Hcol. rewrite (random_choice_draws _ _ _ Hlen).
  pose proof (length_draws col (length (frame_index fr)) (random_state w)) as Hd.
  destruct (draws col (length (frame_index fr)) (random_state w)) as [samples rs'].
  simpl in Hd. simpl. rewrite Hcopy. rewrite Hd, Nat.eqb_refl. simpl.
  unfold read_frame; simpl.
  rewrite (nth_error_update_eq _ _ _ _ _ Hcopy).
  change {| frame_index := frame_index fr;
            frame_columns := assoc_set f samples (frame_columns fr) |}
    with (replace_column f samples fr).
  destruct (predict model (replace_column f samples fr)) as [a|e];
    [|reflexivity].
  destruct (Np.subtract a base) as [d|]; [|reflexivity].
  simpl. rewrite (nth_error_update_ne _ _ _ _ _ Hne), Hself, Hcol.
  simpl. rewrite (nth_error_update_eq _ _ _ _ _ Hcopy). simpl.
  rewrite Hlen, Nat.eqb_refl. cbn [heap random_state predict_calls].
  change {| frame_index := frame_index fr;
            frame_columns :=
              assoc_set f col (assoc_set f samples (frame_columns fr)) |}
    with (replace_column f col (replace_column f samples fr)).
  rewrite (replace_column_restore _ _ _ _ Hcol).
  rewrite (update_nth_restore _ _ _ _ _ Hcopy). reflexivity.
Qed.

(** Expose the frame read next and the fields of the world built so far. *)
Ltac step_world :=
  try unfold read_frame; cbn [heap random_state predict_calls].

(** A round that completes has put back what it perturbed, whatever the
    column and the number of samples were. *)
Lemma round_restores (self : FeatureImportance) (model : Model)
    (copy : DataManager) (n : nat) (base : Np.ndarray) (f : fid)
    (imps imps' : list (fid * float)) (w w' : World) (fr : Frame) :
  nth_error (heap w) (data (data_set self)) = Some fr ->
  nth_error (heap w) (data copy) = Some fr ->
  data copy <> data (data_set self) ->
  perturb_and_score self model copy n base f imps w = (Ok imps', w') ->
  heap w' = heap w.
Proof.
  intros Hself Hcopy Hne.
  unfold perturb_and_score, generate_column_sample, getitem, setitem,
    read_frame, predict_on, np_subtract, write_frame, bind, ret, raise.
  rewrite Hself.
  destruct (assoc_get f (frame_columns fr)) as [col|] eqn:Hcol;
    [|discriminate].
  destruct (random_choice col n (random_state w)) as [[samples rs']|e];
    [|discriminate].
  step_world. rewrite Hcopy.
  destruct (length samples =? length (frame_index fr)); [|discriminate].
  step_world.
  rewrite (nth_error_update_eq _ _ _ _ _ Hcopy).
  match goal with
  | |- context [predict model ?x] => destruct (predict model x) as [a|e]
  end; [|discriminate].
  destruct (Np.subtract a base) as [d|]; [|discriminate].
  step_world.
  rewrite (nth_error_update_ne _ _ _ _ _ Hne), Hself, Hcol.
  step_world.
  rewrite (nth_error_update_eq _ _ _ _ _ Hcopy).
  cbn [frame_index frame_columns].
  destruct (length col =? length (frame_index fr)); [|discriminate].
  step_world.
  intros [= _ <-]. cbn [heap].
  change {| frame_index := frame_index fr;
            frame_columns :=
              assoc_set f col (assoc_set f samples (frame_columns fr)) |}
    with (replace_column f col (replace_column f samples fr)).
  rewrite (replace_column_restore _ _ _ _ Hcol).
  apply (update_nth_restore _ _ _ _ _ Hcopy).
Qed.

(** The whole loop computes the specification's scores, calls [predict] once
    per round on the working copy, and writes to no other frame. *)
Lemma for_features_run (self : FeatureImportance) (model : Model)
    (copy : DataManager) (base : Np.ndarray) (fr : Frame)
    (features : list fid) :
  data copy <> data (data_set self) ->
  Forall (column_ok fr) features ->
  forall (imps : list (fid * float)) (w : World),
  nth_error (heap w) (data (data_set self)) = Some fr ->
  nth_error (heap w) (data copy) = Some fr ->
  exists h' rs' calls,
    for_features self model copy (length (frame_index fr)) base features imps w
    = (spec_scores model fr base (length (frame_index fr)) features
         (random_state w) imps,
       {| heap := h'; random_state := rs';
          predict_calls := predict_calls w ++ calls |}) /\
    length h' = length (heap w) /\
    (forall l, l <> data copy -> nth_error h' l = nth_error (heap w) l) /\
    Forall (fun c => fst c = data copy) calls /\
    (forall d, spec_scores model fr base (length (frame_index fr)) features
                 (random_state w) imps = Ok d ->
               h' = heap w /\ length calls = length features).
Proof.
  intros Hne Hcols. induction Hcols as [|f features [col [Hcol Hlen]] _ IH];
    intros imps w Hself Hcopy.
  - exists (heap w), (random_state w), []. simpl. unfold ret.
    rewrite app_nil_r. destruct w; simpl. repeat split; auto.
  - simpl. unfold bind.
    rewrite (perturb_and_score_run self model copy base f imps w fr col
               Hself Hcopy Hne Hcol Hlen).
    rewrite Hcol.
    destruct (draws col (length (frame_index fr)) (random_state w))
      as [samples rs1]. simpl.
    destruct (spec_score model fr base f samples) as [v|e].
    + destruct (IH (assoc_set f v imps)
                  {| heap := heap w; random_state := rs1;
                     predict_calls := predict_calls w ++
                       [(data copy, replace_column f samples fr)] |}
                  Hself Hcopy)
        as [h' [rs' [calls [Hrun [Hl [Hfr [Hcalls Hok]]]]]]].
      simpl in *.
      exists h', rs', ((data copy, replace_column f samples fr) :: calls).
      rewrite Hrun. rewrite <- app_assoc. simpl.
      split; [reflexivity|]. split; [exact Hl|]. split; [exact Hfr|].
      split; [constructor; [reflexivity | exact Hcalls]|].
      intros d Hd. destruct (Hok d Hd) as [-> Hlen']. split; [reflexivity|].
      simpl. congruence.
    + exists (update_nth (data copy) (replace_column f samples fr) (heap w)),
        rs1, [(data copy, replace_column f samples fr)].
      split; [reflexivity|]. split; [apply length_update_nth|].
      split; [intros l Hl; apply nth_error_update_ne; congruence|].
      split; [constructor; [reflexivity | constructor]|]. discriminate.
Qed.

Lemma raw_importances_run (self : FeatureImportance) (model : Model)
    (y_true : option Np.ndarray) (w : World) (fr : Frame) (b : Np.ndarray) :
  nth_error (heap w) (data (data_set self)) = Some fr ->
  wf_dataset (data_set self) fr ->
  baseline_of model fr y_true = Ok b ->
  Np.shape0 b = length (frame_index fr) ->
  exists h' rs' calls,
    raw_importances self model y_true w
    = (spec_scores model fr b (length (frame_index fr))
         (feature_ids (data_set self)) (random_state w) [],
       {| heap := h'; random_state := rs';
          predict_calls :=
            predict_calls w ++ baseline_calls self fr y_true ++ calls |}) /\
    (forall l, l < length (heap w) -> nth_error h' l = nth_error (heap w) l) /\
    Forall (fun c => fst c = length (heap w)) calls /\
    (forall d, spec_scores model fr b (length (frame_index fr))
                 (feature_ids (data_set self)) (random_state w) [] = Ok d ->
               h' = heap w ++ [fr] /\
               length calls = length (feature_ids (data_set self))).
Proof.
  intros Hself [Hidx Hcols] Hbase Hshape.
  assert (Hlt : data (data_set self) < length (heap w)).
  { apply nth_error_Some. congruence. }
  set (copy := {| data := length (heap w);
                  feature_ids := feature_ids (data_set self);
                  index := index (data_set self) |}).
  assert (Hne : data copy <> data (data_set self)) by (simpl; lia).
  assert (Hfr : {| frame_index := index (data_set self);
                   frame_columns := frame_columns fr |} = fr).
  { rewrite Hidx. destruct fr; reflexivity. }
  assert (Hrun : forall w1, heap w1 = heap w ->
            exists h' rs' calls,
              (cp <- DataManager_init (data (data_set self))
                       (feature_ids (data_set self)) (index (data_set self)) ;;
               for_features self model cp (Np.shape0 b) b
                 (feature_ids (data_set self)) []) w1
              = (spec_scores model fr b (length (frame_index fr))
                   (feature_ids (data_set self)) (random_state w1) [],
                 {| heap := h'; random_state := rs';
                    predict_calls := predict_calls w1 ++ calls |}) /\
              (forall l, l < length (heap w) ->
                 nth_error h' l = nth_error (heap w) l) /\
              Forall (fun c => fst c = length (heap w)) calls /\
              (forall d, spec_scores model fr b (length (frame_index fr))
                           (feature_ids (data_set self)) (random_state w1) []
                         = Ok d ->
                 h' = heap w ++ [fr] /\
                 length calls = length (feature_ids (data_set self)))).
  { intros w1 Hw1. unfold bind, DataManager_init. rewrite Hw1, Hself, Hfr.
    fold copy. rewrite Hshape.
    set (w2 := {| heap := heap w ++ [fr]; random_state := random_state w1;
                  predict_calls := predict_calls w1 |}).
    assert (H2self : nth_error (heap w2) (data (data_set self)) = Some fr).
    { simpl. rewrite nth_error_app1 by exact Hlt. exact Hself. }
    assert (H2copy : nth_error (heap w2) (data copy) = Some fr).
    { simpl. rewrite nth_error_app2 by lia. rewrite Nat.sub_diag. reflexivity. }
    destruct (for_features_run self model copy b fr
                (feature_ids (data_set self)) Hne Hcols [] w2 H2self H2copy)
      as [h' [rs' [calls [Hr [Hl [Hframe [Hcalls Hok]]]]]]].
    exists h', rs', calls. split; [exact Hr|].
    split; [|split; [exact Hcalls | exact Hok]].
    intros l Hl'. rewrite Hframe by (simpl; lia). simpl.
    apply nth_error_app1. exact Hl'. }
  unfold raw_importances.
  destruct y_true as [y|]; simpl in Hbase.
  - injection Hbase as ->.
    destruct (Hrun w eq_refl) as [h' [rs' [calls [Hr H]]]].
    exists h', rs', calls. split; [|exact H].
    unfold bind at 1. unfold ret at 1. simpl. exact Hr.
  - set (w1 := {| heap := heap w; random_state := random_state w;
                  predict_calls :=
                    predict_calls w ++ [(data (data_set self), fr)] |}).
    destruct (Hrun w1 eq_refl) as [h' [rs' [calls [Hr H]]]].
    exists h', rs', calls. split; [|exact H].
    unfold bind at 1. unfold predict_on, read_frame, bind. rewrite Hself.
    rewrite Hbase. fold w1. unfold bind in Hr. rewrite Hr. unfold w1.
    cbn [predict_calls random_state]. rewrite <- app_assoc. reflexivity.
Qed.

(** ** The scores of the specification *)

(** Whatever holds of every single score, for samples drawn from the
    feature's own column, holds of all the scores, and the keys are those
    given plus the features. *)
Lemma spec_scores_all (Q : float -> Prop) (model : Model) (fr : Frame)
    (b : Np.ndarray) (n : nat) (features : list fid) :
  (forall f col samples,
     In f features -> assoc_get f (frame_columns fr) = Some col ->
     length samples = n -> incl samples col ->
     exists v, spec_score model fr b f samples = Ok v /\ Q v) ->
  Forall (fun f => exists col, assoc_get f (frame_columns fr) = Some col /\
                               length col = n) features ->
  forall (rs : RandomState) (imps : list (fid * float)),
  Forall (fun kv => Q (snd kv)) imps ->
  exists d, spec_scores model fr b n features rs imps = Ok d /\
            Forall (fun kv => Q (snd kv)) d /\
            (forall k, In k (map fst d) <-> In k (map fst imps) \/ In k features).
Proof.
  intros Hscore Hcols. revert Hscore.
  induction Hcols as [|f features [col [Hcol Hlen]] _ IH];
    intros Hscore rs imps Himps.
  - exists imps. simpl. repeat split; tauto.
  - simpl. rewrite Hcol.
    pose proof (length_draws col n rs) as Hl.
    pose proof (draws_column col n rs Hlen) as Hincl.
    destruct (draws col n rs) as [samples rs']. simpl in Hl, Hincl.
    destruct (Hscore f col samples (or_introl eq_refl) Hcol Hl Hincl)
      as [v [-> Hv]].
    destruct (IH (fun f' col' samples' Hin =>
                    Hscore f' col' samples' (or_intror Hin))
                rs' (assoc_set f v imps)
                (assoc_set_values _ Q f v imps Hv Himps))
      as [d [Hd [HQ Hkeys]]].
    exists d. split; [exact Hd|]. split; [exact HQ|].
    intros k. rewrite Hkeys, assoc_set_keys. intuition congruence.
Qed.

(** Whatever holds of every score that is computed holds of the scores of a
    run that completes. *)
Lemma spec_scores_values (Q : float -> Prop) (model : Model) (fr : Frame)
    (b : Np.ndarray) (n : nat) :
  (forall f samples v, spec_score model fr b f samples = Ok v -> Q v) ->
  forall (features : list fid) (rs : RandomState) (imps d : list (fid * float)),
  Forall (fun kv => Q (snd kv)) imps ->
  spec_scores model fr b n features rs imps = Ok d ->
  Forall (fun kv => Q (snd kv)) d.
Proof.
  intros Hscore features.
  induction features as [|f features IH]; intros rs imps d Himps Hd; simpl in Hd.
  - injection Hd as <-. exact Himps.
  - destruct (assoc_get f (frame_columns fr)) as [col|]; [|discriminate].
    destruct (draws col n rs) as [samples rs'].
    destruct (spec_score model fr b f samples) as [v|e] eqn:Hv; [|discriminate].
    apply (IH rs' (assoc_set f v imps) d); [|exact Hd].
    apply assoc_set_values; [|exact Himps]. apply (Hscore f samples v Hv).
Qed.

(** A score is the mean of standard deviations. *)
Lemma spec_score_inv (model : Model) (fr : Frame) (b : Np.ndarray) (f : fid)
    (samples : list cell) (v : float) :
  spec_score model fr b f samples = Ok v ->
  exists delta, v = Np.mean (Np.std_axis0 delta).
Proof.
  unfold spec_score.
  destruct (predict model (replace_column f samples fr)) as [a|e];
    [|discriminate].
  destruct (Np.subtract a b) as [delta|]; [|discriminate].
  intros [= <-]. exists delta. reflexivity.
Qed.

Lemma spec_score_not_negative (model : Model) (fr : Frame) (b : Np.ndarray)
    (f : fid) (samples : list cell) (v : float) :
  spec_score model fr b f samples = Ok v -> not_negative v.
Proof.
  intros H. destruct (spec_score_inv _ _ _ _ _ _ H) as [delta ->].
  apply score_not_negative.
Qed.

(** A mean that is finite is a float: no larger than the largest one. *)
Lemma mean_in_range (l : list float) : in_range (Np.mean l).
Proof.
  unfold in_range, Np.mean. intros v.
  destruct (Np.sum l) as [a| | |]; simpl; try discriminate.
  - destruct (Req_dec_T (INR (length l)) 0).
    + unfold scale_inf. destruct (Req_dec_T a 0); [discriminate|].
      destruct (Rlt_dec 0 a); discriminate.
    + intros H. apply of_real_range in H. destruct H as [-> H]. exact H.
  - destruct (Rlt_dec (INR (length l)) 0); discriminate.
  - destruct (Rlt_dec (INR (length l)) 0); discriminate.
Qed.

Lemma spec_score_in_range (model : Model) (fr : Frame) (b : Np.ndarray)
    (f : fid) (samples : list cell) (v : float) :
  spec_score model fr b f samples = Ok v -> in_range v.
Proof.
  intros H. destruct (spec_score_inv _ _ _ _ _ _ H) as [delta ->].
  apply mean_in_range.
Qed.

Lemma spec_score_constant (model : Model) (fr : Frame) (b : Np.ndarray)
    (sh : option nat) (f : fid) (samples : list cell) :
  1 <= length (frame_index fr) ->
  array_ok (length (frame_index fr)) sh b ->
  (forall d, predict model d = Ok b) ->
  exists v, spec_score model fr b f samples = Ok v /\ is_zero v.
Proof.
  intros Hn Hb Hp. unfold spec_score. rewrite Hp.
  destruct (subtract_self _ _ _ Hb) as [d [-> Hd]].
  eexists; split; [reflexivity|]. apply (score_zero _ _ _ Hn Hd).
Qed.

Lemma array_all_shape0 (P : float -> Prop) (n : nat) (sh : option nat)
    (a : Np.ndarray) :
  array_all P n sh a -> Np.shape0 a = n.
Proof.
  destruct a, sh; simpl; tauto.
Qed.

Lemma array_ok_shape0 (n : nat) (sh : option nat) (a : Np.ndarray) :
  array_ok n sh a -> Np.shape0 a = n.
Proof.
  apply array_all_shape0.
Qed.

(** On a valid call every round computes a score. *)
Lemma spec_score_valid (self : FeatureImportance) (model : Model)
    (y_true : option Np.ndarray) (w : World) (fr : Frame) (sh : option nat)
    (b : Np.ndarray) (f : fid) (col samples : list cell) :
  valid_input self model y_true w fr sh ->
  baseline_of model fr y_true = Ok b ->
  In f (feature_ids (data_set self)) ->
  assoc_get f (frame_columns fr) = Some col ->
  length samples = length (frame_index fr) ->
  incl samples col ->
  exists v, spec_score model fr b f samples = Ok v /\ not_negative v.
Proof.
  intros V Hb Hf Hcol Hlen Hincl.
  destruct (valid_baseline _ _ _ _ _ _ V) as [b' [Hb' Hshape]].
  rewrite Hb in Hb'. injection Hb' as <-.
  destruct (valid_predict _ _ _ _ _ _ V f (replace_column f samples fr) Hf)
    as [a [Ha Hsa]].
  { exists col, samples. repeat split; assumption. }
  destruct (subtract_shape _ _ _ _ Hsa Hshape) as [d [Hd _]].
  assert (Hv : spec_score model fr b f samples
               = Ok (Np.mean (Np.std_axis0 d))).
  { unfold spec_score. rewrite Ha, Hd. reflexivity. }
  eexists. split; [exact Hv|]. apply score_not_negative.
Qed.

(** A valid call computes a raw score for every feature, and no raw score is
    negative. *)
Lemma raw_importances_valid (self : FeatureImportance) (model : Model)
    (y_true : option Np.ndarray) (w : World) (fr : Frame) (sh : option nat) :
  valid_input self model y_true w fr sh ->
  exists raw w',
    raw_importances self model y_true w = (Ok raw, w') /\
    Forall (fun kv => not_negative (snd kv) /\ in_range (snd kv)) raw /\
    (forall k, In k (map fst raw) <-> In k (feature_ids (data_set self))).
Proof.
  intros V. destruct (valid_baseline _ _ _ _ _ _ V) as [b [Hb Hshape]].
  destruct (raw_importances_run self model y_true w fr b
              (valid_heap _ _ _ _ _ _ V) (valid_wf _ _ _ _ _ _ V) Hb
              (array_all_shape0 _ _ _ _ Hshape))
    as [h' [rs' [calls [Hrun _]]]].
  destruct (spec_scores_all (fun _ => True) model fr b
              (length (frame_index fr)) (feature_ids (data_set self))
              (fun f col samples Hf Hcol Hlen Hincl =>
                 match spec_score_valid self model y_true w fr sh b f col
                         samples V Hb Hf Hcol Hlen Hincl with
                 | ex_intro _ v (conj Hv _) => ex_intro _ v (conj Hv I)
                 end)
              (proj2 (valid_wf _ _ _ _ _ _ V)) (random_state w) []
              (Forall_nil _))
    as [d [Hd [_ Hkeys]]].
  rewrite Hd in Hrun. eexists d, _. split; [exact Hrun|]. split.
  - apply (spec_scores_values
             (fun x => not_negative x /\ in_range x) model fr b
             (length (frame_index fr))
             (fun f samples v Hv =>
                conj (spec_score_not_negative _ _ _ _ _ _ Hv)
                     (spec_score_in_range _ _ _ _ _ _ Hv))
             (feature_ids (data_set self)) (random_state w) [] d
             (Forall_nil _) Hd).
  - intros k. rewrite Hkeys. simpl. tauto.
Qed.

(** ** Sorting and normalising *)

Lemma insert_sorted_In (leb : float -> float -> bool) (x y : fid * float)
    (l : Series) :
  In y (insert_sorted leb x l) <-> y = x \/ In y l.
Proof.
  induction l as [|z l IH]; simpl.
  - intuition congruence.
  - destruct (leb (snd x) (snd z)); simpl; [|rewrite IH]; intuition congruence.
Qed.

Lemma sort_by_In (leb : float -> float -> bool) (y : fid * float) (l : Series) :
  In y (sort_by leb l) <-> In y l.
Proof.
  induction l as [|z l IH]; simpl; [tauto|].
  rewrite insert_sorted_In, IH. intuition congruence.
Qed.

Lemma sort_values_In (ascending : bool) (y : fid * float) (s : Series) :
  In y (sort_values ascending s) <-> In y s.
Proof.
  unfold sort_values. rewrite in_app_iff, sort_by_In, !filter_In.
  destruct (is_nan (snd y)); simpl; intuition congruence.
Qed.

Lemma normalize_In_key (ascending : bool) (d : list (fid * float)) (k : fid) :
  In k (map fst (normalize ascending d)) <-> In k (map fst d).
Proof.
  unfold normalize, series_div, pd_Series. rewrite map_map. simpl.
  rewrite !in_map_iff. split; intros [kv [Hk Hin]]; exists kv;
    (split; [exact Hk|]); apply (sort_values_In ascending kv d); exact Hin.
Qed.











Lemma filter_split_perm (A : Type) (p : A -> bool) (l : list A) :
  Permutation (filter (fun x => negb (p x)) l ++ filter p l) l.
Proof.
  induction l as [|a l IH]; simpl; [constructor|].
  destruct (p a); simpl.
  - apply Permutation_sym, Permutation_cons_app, Permutation_sym, IH.
  - apply perm_skip. exact IH.
Qed.

Lemma insert_sorted_perm (leb : float -> float -> bool) (x : fid * float)
    (l : Series) :
  Permutation (insert_sorted leb x l) (x :: l).
Proof.
  induction l as [|y l IH]; simpl; [apply Permutation_refl|].
  destruct (leb (snd x) (snd y)); [apply Permutation_refl|].
  apply Permutation_trans with (y :: x :: l).
  - apply perm_skip. exact IH.
  - apply perm_swap.
Qed.

Lemma sort_by_perm (leb : float -> float -> bool) (l : Series) :
  Permutation (sort_by leb l) l.
Proof.
  induction l as [|x l IH]; simpl; [constructor|].
  apply Permutation_trans with (x :: sort_by leb l).
  - apply insert_sorted_perm.
  - apply perm_skip. exact IH.
Qed.

(** Sorting moves entries, keys with their scores, and nothing else. *)
Lemma sort_values_perm (ascending : bool) (s : Series) :
  Permutation (sort_values ascending s) s.
Proof.
  unfold sort_values.
  apply Permutation_trans
    with (filter (fun kv => negb (is_nan (snd kv))) s
          ++ filter (fun kv => is_nan (snd kv)) s).
  - apply Permutation_app_tail. apply sort_by_perm.
  - apply (filter_split_perm _ (fun kv => is_nan (snd kv)) s).
Qed.

(** Up to order, normalising divides every raw score by the sum. *)
Lemma normalize_perm (ascending : bool) (raw : list (fid * float)) :
  Permutation (normalize ascending raw)
    (series_div raw (series_sum (sort_values ascending raw))).
Proof.
  unfold normalize, pd_Series, series_div. apply Permutation_map.
  apply sort_values_perm.
Qed.



(** Raw scores that are all zero normalise to NaN, every one of them. *)
Lemma normalize_zero (ascending : bool) (raw : list (fid * float)) :
  Forall (fun kv => is_zero (snd kv)) raw ->
  Forall (fun kv => snd kv = NaN) (normalize ascending raw).
Proof.
  intros Hraw. unfold normalize, pd_Series.
  set (s := sort_values ascending raw).
  assert (Hs : forall kv, In kv s -> snd kv = Fin 0).
  { intros kv Hkv. apply (sort_values_In ascending kv raw) in Hkv.
    rewrite Forall_forall in Hraw. apply Hraw. exact Hkv. }
  assert (Hsum : series_sum s = Fin 0).
  { unfold series_sum. apply sum_zero. apply Forall_forall. intros x Hx.
    apply filter_In in Hx. destruct Hx as [Hx _]. apply in_map_iff in Hx.
    destruct Hx as [kv [<- Hkv]]. apply Hs. exact Hkv. }
  rewrite Hsum. apply Forall_forall. intros kv Hkv. unfold series_div in Hkv.
  apply in_map_iff in Hkv. destruct Hkv as [kv0 [<- Hkv0]]. simpl.
  rewrite (Hs kv0 Hkv0). simpl.
  destruct (Req_dec_T 0 0) as [_|H]; [|contradiction].
  unfold scale_inf. destruct (Req_dec_T 0 0) as [_|H]; [reflexivity|contradiction].
Qed.

(** ** Frames written and exceptions raised *)

Lemma writes_only_ret (A : Type) (c : loc) (a : A) : writes_only c (ret a).
Proof. intros w. simpl. split; [lia | reflexivity]. Qed.

Lemma writes_only_raise (A : Type) (c : loc) (e : exn) :
  writes_only c (@raise A e).
Proof. intros w. simpl. split; [lia | reflexivity]. Qed.

Lemma writes_only_lift (A : Type) (c : loc) (r : result A) :
  writes_only c (lift r).
Proof. intros w. simpl. split; [lia | reflexivity]. Qed.

Lemma writes_only_bind (A B : Type) (c : loc) (m : M A) (k : A -> M B) :
  writes_only c m -> (forall a, writes_only c (k a)) ->
  writes_only c (bind m k).
Proof.
  intros Hm Hk w. unfold bind. destruct (Hm w) as [Hl Hf].
  destruct (m w) as [[a|e] w1]; simpl in *.
  - destruct (Hk a w1) as [Hl' Hf']. split; [lia|].
    intros l Hne Hlt. rewrite Hf' by (auto; lia). apply Hf; assumption.
  - split; assumption.
Qed.

Lemma writes_only_read_frame (c l : loc) : writes_only c (read_frame l).
Proof.
  intros w. unfold read_frame. destruct (nth_error (heap w) l); simpl;
    (split; [lia | reflexivity]).
Qed.

Lemma writes_only_getitem (c : loc) (dm : DataManager) (key : fid) :
  writes_only c (getitem dm key).
Proof.
  unfold getitem. apply writes_only_bind; [apply writes_only_read_frame|].
  intros fr. destruct (assoc_get key (frame_columns fr));
    [apply writes_only_ret | apply writes_only_raise].
Qed.

Lemma writes_only_setitem (dm : DataManager) (key : fid) (v : list cell) :
  writes_only (data dm) (setitem dm key v).
Proof.
  unfold setitem. apply writes_only_bind; [apply writes_only_read_frame|].
  intros fr. destruct (length v =? length (frame_index fr));
    [|apply writes_only_raise].
  intros w. unfold write_frame. simpl. rewrite length_update_nth.
  split; [lia|]. intros l Hne _. apply nth_error_update_ne. congruence.
Qed.

Lemma writes_only_sample (c : loc) (dm : DataManager) (f : fid) (n : nat) :
  writes_only c (generate_column_sample dm f n).
Proof.
  unfold generate_column_sample.
  apply writes_only_bind; [apply writes_only_getitem|].
  intros col w. destruct (random_choice col n (random_state w)) as [[s rs]|e];
    simpl; (split; [lia | reflexivity]).
Qed.

Lemma writes_only_predict_on (c : loc) (model : Model) (l : loc) :
  writes_only c (predict_on model l).
Proof.
  unfold predict_on. apply writes_only_bind; [apply writes_only_read_frame|].
  intros fr w. simpl. split; [lia | reflexivity].
Qed.

Lemma writes_only_np_subtract (c : loc) (a b : Np.ndarray) :
  writes_only c (np_subtract a b).
Proof.
  unfold np_subtract. destruct (Np.subtract a b);
    [apply writes_only_ret | apply writes_only_raise].
Qed.

Lemma writes_only_round (self : FeatureImportance) (model : Model)
    (copy : DataManager) (n : nat) (base : Np.ndarray) (f : fid)
    (imps : list (fid * float)) :
  writes_only (data copy) (perturb_and_score self model copy n base f imps).
Proof.
  unfold perturb_and_score.
  apply writes_only_bind; [apply writes_only_sample | intros samples].
  apply writes_only_bind; [apply writes_only_setitem | intros _].
  apply writes_only_bind; [apply writes_only_predict_on | intros newp].
  apply writes_only_bind; [apply writes_only_np_subtract | intros d].
  apply writes_only_bind; [apply writes_only_getitem | intros col].
  apply writes_only_bind; [apply writes_only_setitem | intros _].
  apply writes_only_ret.
Qed.

Lemma writes_only_loop (self : FeatureImportance) (model : Model)
    (copy : DataManager) (n : nat) (base : Np.ndarray) (features : list fid) :
  forall imps,
    writes_only (data copy)
      (for_features self model copy n base features imps).
Proof.
  induction features as [|f features IH]; intros imps; simpl.
  - apply writes_only_ret.
  - apply writes_only_bind; [apply writes_only_round | exact IH].
Qed.

(** The call as a whole leaves every frame that existed before it as it
    was. *)
Lemma raw_importances_frame (self : FeatureImportance) (model : Model)
    (y_true : option Np.ndarray) (w : World) (l : loc) :
  l < length (heap w) ->
  nth_error (heap (snd (raw_importances self model y_true w))) l
  = nth_error (heap w) l.
Proof.
  intros Hl. unfold raw_importances.
  assert (Hbase : writes_only (length (heap w))
            match y_true with
            | Some y => ret y
            | None => predict_on model (data (data_set self))
            end).
  { destruct y_true; [apply writes_only_ret | apply writes_only_predict_on]. }
  unfold bind at 1. destruct (Hbase w) as [Hlen Hsame].
  destruct (match y_true with
            | Some y => ret y
            | None => predict_on model (data (data_set self))
            end w) as [[b|e] w1]; simpl in Hlen, Hsame |- *.
  - rewrite <- (Hsame l) by lia.
    unfold bind, DataManager_init.
    destruct (nth_error (heap w1) (data (data_set self))) as [fr|];
      [|reflexivity].
    match goal with
    | |- context [for_features ?s ?m ?cp ?n ?b ?fs ?i ?w2] =>
        destruct (writes_only_loop s m cp n b fs i w2) as [_ Hloop]
    end.
    simpl in Hloop. rewrite Hloop; [|lia|rewrite length_app; simpl; lia].
    apply nth_error_app1. lia.
  - apply Hsame; lia.
Qed.

(** ** The method in terms of its raw scores *)

Lemma feature_importance_fst (self : FeatureImportance) (model : Model)
    (ascending : bool) (y_true : option Np.ndarray) (w : World) :
  fst (feature_importance self model ascending y_true w)
  = match fst (raw_importances self model y_true w) with
    | Ok raw => Ok (normalize ascending raw)
    | Raise e => Raise e
    end.
Proof.
  unfold feature_importance, bind, ret.
  destruct (raw_importances self model y_true w) as [[raw|e] w']; reflexivity.
Qed.

Lemma feature_importance_snd (self : FeatureImportance) (model : Model)
    (ascending : bool) (y_true : option Np.ndarray) (w : World) :
  snd (feature_importance self model ascending y_true w)
  = snd (raw_importances self model y_true w).
Proof.
  unfold feature_importance, bind, ret.
  destruct (raw_importances self model y_true w) as [[raw|e] w']; reflexivity.
Qed.

Lemma assoc_get_set_eq (V : Type) (k : fid) (v : V) (d : list (fid * V)) :
  assoc_get k (assoc_set k v d) = Some v.
Proof.
  induction d as [|[k0 v0] d IH]; simpl.
  - rewrite String.eqb_refl. reflexivity.
  - destruct (String.eqb k k0) eqn:E; simpl.
    + rewrite String.eqb_refl. reflexivity.
    + rewrite E. exact IH.
Qed.

Lemma assoc_get_set_ne (V : Type) (k k' : fid) (v : V) (d : list (fid * V)) :
  k' <> k -> assoc_get k' (assoc_set k v d) = assoc_get k' d.
Proof.
  intros Hne. induction d as [|[k0 v0] d IH]; simpl.
  - destruct (String.eqb_spec k' k); [contradiction | reflexivity].
  - destruct (String.eqb_spec k k0) as [->|Hk]; simpl.
    + destruct (String.eqb_spec k' k0); [contradiction | reflexivity].
    + destruct (String.eqb k' k0); [reflexivity | exact IH].
Qed.

Lemma spec_scores_lookup (model : Model) (fr : Frame) (b : Np.ndarray)
    (features : list fid) :
  NoDup features -> Forall (column_ok fr) features ->
  forall rs imps d,
    spec_scores model fr b (length (frame_index fr)) features rs imps = Ok d ->
    forall f,
      (In f features ->
       exists score, assoc_get f d = Some score /\ scored_as model fr b f score) /\
      (~ In f features -> assoc_get f d = assoc_get f imps).
Proof.
  intros Hnd Hcols. revert Hnd.
  induction Hcols as [|f0 features [col [Hcol Hlen]] _ IH];
    intros Hnd rs imps d Hd f.
  - simpl in Hd. injection Hd as <-. split; [intros [] | reflexivity].
  - simpl in Hd. rewrite Hcol in Hd.
    pose proof (length_draws col (length (frame_index fr)) rs) as Hl.
    pose proof (draws_column col _ rs Hlen) as Hincl.
    destruct (draws col (length (frame_index fr)) rs) as [samples rs'].
    simpl in Hl, Hincl.
    destruct (spec_score model fr b f0 samples) as [v|e] eqn:Hv;
      [|discriminate].
    inversion Hnd as [|? ? Hnotin Hnd']; subst.
    destruct (IH Hnd' rs' (assoc_set f0 v imps) d Hd f) as [Hin Hout].
    destruct (IH Hnd' rs' (assoc_set f0 v imps) d Hd f0) as [_ Hout0].
    split.
    + intros [<-|Hf]; [|apply Hin; exact Hf].
      exists v. split.
      * rewrite (Hout0 Hnotin). apply assoc_get_set_eq.
      * unfold spec_score in Hv.
        destruct (predict model (replace_column f0 samples fr)) as [newp|]
          eqn:Hp; [|discriminate].
        destruct (Np.subtract newp b) as [delta|] eqn:Hs; [|discriminate].
        injection Hv as <-.
        exists col, samples, newp, delta. repeat split; assumption.
    + intros Hnot. rewrite Hout by (intros H; apply Hnot; right; exact H).
      apply assoc_get_set_ne. intros ->. apply Hnot. left; reflexivity.
Qed.

(** ** Where exceptions come from *)

Lemma raises_only_ret (A : Type) (P : exn -> Prop) (a : A) :
  raises_only P (ret a).
Proof. intros w e H. discriminate. Qed.

Lemma raises_only_raise (A : Type) (P : exn -> Prop) (e : exn) :
  P e -> raises_only P (@raise A e).
Proof. intros He w e' [= <-]. exact He. Qed.

Lemma raises_only_lift (A : Type) (P : exn -> Prop) (r : result A) :
  (forall e, r = Raise e -> P e) -> raises_only P (lift r).
Proof. intros H w e He. apply H. exact He. Qed.

Lemma raises_only_bind (A B : Type) (P : exn -> Prop) (m : M A)
    (k : A -> M B) :
  raises_only P m -> (forall a, raises_only P (k a)) ->
  raises_only P (bind m k).
Proof.
  intros Hm Hk w e. unfold bind. specialize (Hm w).
  destruct (m w) as [[a|e'] w1]; simpl in *.
  - apply Hk.
  - intros [= <-]. apply Hm. reflexivity.
Qed.

Lemma raises_only_weaken (A : Type) (P Q : exn -> Prop) (m : M A) :
  (forall e, P e -> Q e) -> raises_only P m -> raises_only Q m.
Proof. intros H Hm w e He. apply H. apply (Hm w e He). Qed.

Lemma raises_only_read_frame (model : Model) (l : loc) :
  raises_only (own_or_predict model) (read_frame l).
Proof.
  intros w e. unfold read_frame. destruct (nth_error (heap w) l); simpl;
    [discriminate|]. intros [= <-]. right; right; left; reflexivity.
Qed.

Lemma raises_only_getitem (model : Model) (dm : DataManager) (key : fid) :
  raises_only (own_or_predict model) (getitem dm key).
Proof.
  unfold getitem. apply raises_only_bind; [apply raises_only_read_frame|].
  intros fr. destruct (assoc_get key (frame_columns fr));
    [apply raises_only_ret | apply raises_only_raise; left; reflexivity].
Qed.

Lemma raises_only_setitem (model : Model) (dm : DataManager) (key : fid)
    (v : list cell) :
  raises_only (own_or_predict model) (setitem dm key v).
Proof.
  unfold setitem. apply raises_only_bind; [apply raises_only_read_frame|].
  intros fr. destruct (length v =? length (frame_index fr)).
  - intros w e H. discriminate.
  - apply raises_only_raise. right; left; reflexivity.
Qed.

Lemma raises_only_sample (model : Model) (dm : DataManager) (f : fid)
    (n : nat) :
  raises_only (own_or_predict model) (generate_column_sample dm f n).
Proof.
  unfold generate_column_sample.
  apply raises_only_bind; [apply raises_only_getitem|].
  intros col w e.
  destruct (random_choice col n (random_state w)) as [[s rs]|e0] eqn:E;
    simpl; [discriminate|].
  intros [= <-]. unfold random_choice in E.
  destruct col, n; try discriminate; injection E as <-;
    right; left; reflexivity.
Qed.

Lemma raises_only_predict_on (model : Model) (l : loc) :
  raises_only (own_or_predict model) (predict_on model l).
Proof.
  unfold predict_on. apply raises_only_bind; [apply raises_only_read_frame|].
  intros fr w e. simpl. intros H. right; right; right. exists fr. exact H.
Qed.

Lemma raises_only_np_subtract (model : Model) (a b : Np.ndarray) :
  raises_only (own_or_predict model) (np_subtract a b).
Proof.
  unfold np_subtract. destruct (Np.subtract a b);
    [apply raises_only_ret | apply raises_only_raise; right; left; reflexivity].
Qed.

Lemma raises_only_loop (self : FeatureImportance) (model : Model)
    (copy : DataManager) (n : nat) (base : Np.ndarray) (features : list fid) :
  forall imps,
    raises_only (own_or_predict model)
      (for_features self model copy n base features imps).
Proof.
  induction features as [|f features IH]; intros imps; simpl.
  - apply raises_only_ret.
  - apply raises_only_bind; [|exact IH]. unfold perturb_and_score.
    apply raises_only_bind; [apply raises_only_sample | intros samples].
    apply raises_only_bind; [apply raises_only_setitem | intros _].
    apply raises_only_bind; [apply raises_only_predict_on | intros newp].
    apply raises_only_bind; [apply raises_only_np_subtract | intros d].
    apply raises_only_bind; [apply raises_only_getitem | intros col].
    apply raises_only_bind; [apply raises_only_setitem | intros _].
    apply raises_only_ret.
Qed.

(** The method raises nothing but its own key, value and reference errors
    and what [predict] raises. *)
Lemma feature_importance_raises (self : FeatureImportance) (model : Model)
    (ascending : bool) (y_true : option Np.ndarray) :
  raises_only (own_or_predict model)
    (feature_importance self model ascending y_true).
Proof.
  unfold feature_importance.
  apply raises_only_bind; [|intros raw; apply raises_only_ret].
  unfold raw_importances. apply raises_only_bind.
  - destruct y_true; [apply raises_only_ret | apply raises_only_predict_on].
  - intros b. apply raises_only_bind; [|intros cp; apply raises_only_loop].
    intros w e. unfold DataManager_init.
    destruct (nth_error (heap w) (data (data_set self))); simpl;
      [discriminate|]. intros [= <-]. right; right; left; reflexivity.
Qed.

(** ** The sample inputs, evaluated *)

Lemma spec_scores_constant_score (model : Model) (fr : Frame) (b : Np.ndarray)
    (n : nat) (v : float) (features : list fid) :
  (forall f samples, spec_score model fr b f samples = Ok v) ->
  Forall (column_ok fr) features ->
  forall rs imps,
    spec_scores model fr b n features rs imps
    = Ok (fold_left (fun d f => assoc_set f v d) features imps).
Proof.
  intros Hv Hcols. induction Hcols as [|f features [col [Hcol _]] _ IH];
    intros rs imps; simpl; [reflexivity|].
  rewrite Hcol. destruct (draws col n rs) as [samples rs'].
  rewrite Hv. apply IH.
Qed.

Lemma fsub_small (a b : R) :
  (- 512 <= a <= 512)%R -> (- 512 <= b <= 512)%R ->
  fsub (Fin a) (Fin b) = Fin (a - b).
Proof.
  intros Ha Hb. unfold fsub. simpl. apply of_real_eq; lra.
Qed.

Lemma fadd_small (a b : R) :
  (- 512 <= a <= 512)%R -> (- 512 <= b <= 512)%R ->
  fadd (Fin a) (Fin b) = Fin (a + b).
Proof.
  intros Ha Hb. simpl. apply of_real_eq; lra.
Qed.

Lemma fdiv_small (a b v : R) :
  b <> 0%R -> (a / b)%R = v -> (- 1024 <= v <= 1024)%R ->
  fdiv (Fin a) (Fin b) = Fin v.
Proof.
  intros Hb Hv Hr. simpl. destruct (Req_dec_T b 0); [contradiction|].
  apply of_real_eq; assumption.
Qed.

Lemma mean_pair (a b : R) :
  (- 512 <= a <= 512)%R -> (- 512 <= b <= 512)%R ->
  Np.mean [Fin a; Fin b] = Fin ((a + b) / 2).
Proof.
  intros Ha Hb. unfold Np.mean, Np.sum. cbn [fold_left length].
  assert (E1 : fadd (Fin 0) (Fin a) = Fin a).
  { simpl. apply of_real_eq; lra. }
  assert (E2 : fadd (Fin a) (Fin b) = Fin (a + b)).
  { simpl. apply of_real_eq; lra. }
  rewrite E1, E2. simpl.
  destruct (Req_dec_T (1 + 1) 0); [lra|]. apply of_real_eq; lra.
Qed.

Lemma std_pair (a b : R) :
  (- 2 <= a <= 2)%R -> (- 2 <= b <= 2)%R ->
  Np.std [Fin a; Fin b] = Fin (sqrt ((a - b) * (a - b) / 4)).
Proof.
  intros Ha Hb. unfold Np.std. cbv zeta. rewrite mean_pair by lra.
  cbn [map]. rewrite !fsub_small by lra.
  set (v := ((a - b) * (a - b) / 4)%R).
  assert (Hv : (0 <= v <= 4)%R).
  { unfold v. pose proof (Rle_0_sqr (a - b)) as Hsq. unfold Rsqr in Hsq.
    assert ((a - b) * (a - b) <= 16)%R by nra. lra. }
  assert (E1 : fmul (Fin (a - (a + b) / 2)) (Fin (a - (a + b) / 2)) = Fin v).
  { simpl. apply of_real_eq; [unfold v; field | lra]. }
  assert (E2 : fmul (Fin (b - (a + b) / 2)) (Fin (b - (a + b) / 2)) = Fin v).
  { simpl. apply of_real_eq; [unfold v; field | lra]. }
  rewrite E1, E2, mean_pair by lra.
  replace ((v + v) / 2)%R with v by field. simpl.
  destruct (Rlt_dec v 0); [lra | reflexivity].
Qed.

Lemma mean_one (x : R) :
  (- 1024 <= x <= 1024)%R -> Np.mean [Fin x] = Fin x.
Proof.
  intros Hx. unfold Np.mean, Np.sum. cbn [fold_left length].
  assert (E : fadd (Fin 0) (Fin x) = Fin x).
  { simpl. apply of_real_eq; lra. }
  rewrite E. simpl. destruct (Req_dec_T 1 0); [lra|].
  apply of_real_eq; [field | lra].
Qed.

(** The deviations of the largest float and its opposite from their mean,
    zero, are these two numbers; their squares overflow. *)
Lemma std_huge : Np.std [Fin max_float; Fin (- max_float)] = PInf.
Proof.
  pose proof max_float_ge_4 as H4.
  assert (Hm : Np.mean [Fin max_float; Fin (- max_float)] = Fin 0).
  { unfold Np.mean, Np.sum. cbn [fold_left length].
    assert (E1 : fadd (Fin 0) (Fin max_float) = Fin max_float).
    { simpl. replace (0 + max_float)%R with max_float by lra.
      apply of_real_fin. rewrite Rabs_right; lra. }
    assert (E2 : fadd (Fin max_float) (Fin (- max_float)) = Fin 0).
    { simpl. apply of_real_eq; lra. }
    rewrite E1, E2. simpl. destruct (Req_dec_T (1 + 1) 0); [lra|].
    apply of_real_eq; lra. }
  unfold Np.std. cbv zeta. rewrite Hm. cbn [map].
  assert (D1 : fsub (Fin max_float) (Fin 0) = Fin max_float).
  { unfold fsub. simpl. replace (max_float + - 0)%R with max_float by lra.
    apply of_real_fin. rewrite Rabs_right; lra. }
  assert (D2 : fsub (Fin (- max_float)) (Fin 0) = Fin (- max_float)).
  { unfold fsub. simpl. replace (- max_float + - 0)%R with (- max_float)%R by lra.
    apply of_real_fin. rewrite Rabs_left; lra. }
  assert (S1 : fmul (Fin max_float) (Fin max_float) = PInf).
  { simpl. apply of_real_big. nra. }
  assert (S2 : fmul (Fin (- max_float)) (Fin (- max_float)) = PInf).
  { simpl. apply of_real_big. nra. }
  rewrite D1, D2, S1, S2. unfold Np.mean, Np.sum. simpl.
  destruct (Rlt_dec (1 + 1) 0); [lra | reflexivity].
Qed.

Lemma mean_PInf : Np.mean [PInf] = PInf.
Proof.
  unfold Np.mean, Np.sum. simpl. destruct (Rlt_dec 1 0); [lra | reflexivity].
Qed.

Lemma toy_heap :
  nth_error (heap toy_world) (data (data_set toy_self)) = Some toy_frame.
Proof. reflexivity. Qed.

Lemma toy_wf : wf_dataset (data_set toy_self) toy_frame.
Proof.
  split; [reflexivity|].
  repeat constructor; eexists; split; reflexivity.
Qed.

(** The constant model against its own baseline: every score is zero. *)
Lemma constant_model_score (fr : Frame) (f : fid) (samples : list cell) :
  spec_score constant_model fr (Np.Arr1 [Fin 0; Fin 0]) f samples = Ok (Fin 0).
Proof.
  destruct (spec_score_constant constant_model toy_frame
              (Np.Arr1 [Fin 0; Fin 0]) None f samples)
    as [v [Hv Hz]].
  - simpl; lia.
  - simpl. repeat constructor.
  - reflexivity.
  - unfold is_zero in Hz. subst v. exact Hv.
Qed.

(** The constant model against the targets [0, 2]: every score is one. *)
Lemma constant_model_score_y_true (fr : Frame) (f : fid) (samples : list cell) :
  spec_score constant_model fr toy_y_true f samples = Ok (Fin 1).
Proof.
  unfold spec_score, constant_model, toy_y_true. cbn [predict].
  change (Np.subtract (Np.Arr1 [Fin 0; Fin 0]) (Np.Arr1 [Fin 0; Fin 2]))
    with (Some (Np.Arr1 [fsub (Fin 0) (Fin 0); fsub (Fin 0) (Fin 2)])).
  cbn [Np.std_axis0]. rewrite !fsub_small by lra.
  rewrite std_pair by lra.
  replace ((0 - 0 - (0 - 2)) * (0 - 0 - (0 - 2)) / 4)%R with 1%R by field.
  rewrite sqrt_1, mean_one by lra. reflexivity.
Qed.

(** The model that returns feature [a]: the score of [a] for the samples
    [1, 1] is one half, and perturbing [b] changes nothing. *)
Lemma column_a_score_a :
  Np.mean [Np.std [fsub (Fin 1) (Fin 0); fsub (Fin 1) (Fin 1)]] = Fin (1 / 2).
Proof.
  rewrite !fsub_small by lra. rewrite std_pair by lra.
  replace ((1 - 0 - (1 - 1)) * (1 - 0 - (1 - 1)) / 4)%R
    with ((1 / 2) * (1 / 2))%R by field.
  rewrite sqrt_square by lra. apply mean_one. lra.
Qed.

Lemma column_a_score_b :
  Np.mean [Np.std [fsub (Fin 0) (Fin 0); fsub (Fin 1) (Fin 1)]] = Fin 0.
Proof.
  rewrite !fsub_small by lra. rewrite std_pair by lra.
  replace ((0 - 0 - (1 - 1)) * (0 - 0 - (1 - 1)) / 4)%R with 0%R by field.
  rewrite sqrt_0. apply mean_one. lra.
Qed.

(** The model of huge predictions against the zero targets: every score is
    the positive infinity. *)
Lemma huge_model_score (fr : Frame) (f : fid) (samples : list cell) :
  spec_score huge_model fr zero_targets f samples = Ok PInf.
Proof.
  pose proof max_float_ge_4 as H4.
  unfold spec_score, huge_model, zero_targets. cbn [predict].
  change (Np.subtract (Np.Arr1 [Fin max_float; Fin (- max_float)])
            (Np.Arr1 [Fin 0; Fin 0]))
    with (Some (Np.Arr1 [fsub (Fin max_float) (Fin 0);
                         fsub (Fin (- max_float)) (Fin 0)])).
  cbn [Np.std_axis0].
  assert (D1 : fsub (Fin max_float) (Fin 0) = Fin max_float).
  { unfold fsub. simpl. replace (max_float + - 0)%R with max_float by lra.
    apply of_real_fin. rewrite Rabs_right; lra. }
  assert (D2 : fsub (Fin (- max_float)) (Fin 0) = Fin (- max_float)).
  { unfold fsub. simpl. replace (- max_float + - 0)%R with (- max_float)%R by lra.
    apply of_real_fin. rewrite Rabs_left; lra. }
  rewrite D1, D2, std_huge, mean_PInf. reflexivity.
Qed.

Lemma toy_constant_run :
  exists w',
    raw_importances toy_self constant_model None toy_world
    = (Ok [("a"%string, Fin 0); ("b"%string, Fin 0)], w') /\
    heap w' = [toy_frame; toy_frame] /\
    length (predict_calls w') = 3.
Proof.
  destruct (raw_importances_run toy_self constant_model None toy_world
              toy_frame (Np.Arr1 [Fin 0; Fin 0]) toy_heap toy_wf eq_refl
              eq_refl) as [h' [rs' [calls [Hrun [_ [_ Hok]]]]]].
  rewrite (spec_scores_constant_score constant_model toy_frame _ _ (Fin 0)
             _ (constant_model_score toy_frame) (proj2 toy_wf)) in Hrun, Hok.
  destruct (Hok _ eq_refl) as [-> Hcalls].
  eexists. split; [exact Hrun|]. split; [reflexivity|].
  simpl. rewrite Hcalls. reflexivity.
Qed.

Lemma toy_y_true_run :
  fst (raw_importances toy_self constant_model (Some toy_y_true) toy_world)
  = Ok [("a"%string, Fin 1); ("b"%string, Fin 1)].
Proof.
  destruct (raw_importances_run toy_self constant_model (Some toy_y_true)
              toy_world toy_frame toy_y_true toy_heap toy_wf eq_refl eq_refl)
    as [h' [rs' [calls [Hrun _]]]].
  rewrite (spec_scores_constant_score constant_model toy_frame _ _ (Fin 1)
             _ (constant_model_score_y_true toy_frame) (proj2 toy_wf)) in Hrun.
  rewrite Hrun. reflexivity.
Qed.

Lemma toy_column_a_raw :
  fst (raw_importances toy_self column_a_model None toy_world)
  = Ok [("a"%string, Fin (1 / 2)); ("b"%string, Fin 0)].
Proof.
  destruct (raw_importances_run toy_self column_a_model None toy_world
              toy_frame (Np.Arr1 [Fin 0; Fin 1]) toy_heap toy_wf eq_refl
              eq_refl) as [h' [rs' [calls [Hrun _]]]].
  rewrite Hrun. cbn [fst].
  change (spec_scores column_a_model toy_frame (Np.Arr1 [Fin 0; Fin 1])
            (length (frame_index toy_frame))
            (feature_ids (data_set toy_self)) (random_state toy_world) [])
    with (Ok [("a"%string,
               Np.mean [Np.std [fsub (Fin 1) (Fin 0); fsub (Fin 1) (Fin 1)]]);
              ("b"%string,
               Np.mean [Np.std [fsub (Fin 0) (Fin 0); fsub (Fin 1) (Fin 1)]])]).
  rewrite column_a_score_a, column_a_score_b. reflexivity.
Qed.

Lemma toy_huge_raw :
  fst (raw_importances toy_self huge_model (Some zero_targets) toy_world)
  = Ok [("a"%string, PInf); ("b"%string, PInf)].
Proof.
  destruct (raw_importances_run toy_self huge_model (Some zero_targets)
              toy_world toy_frame zero_targets toy_heap toy_wf eq_refl eq_refl)
    as [h' [rs' [calls [Hrun _]]]].
  rewrite (spec_scores_constant_score huge_model toy_frame _ _ PInf
             _ (huge_model_score toy_frame) (proj2 toy_wf)) in Hrun.
  rewrite Hrun. reflexivity.
Qed.

(** Infinite raw scores: the sum is infinite and every score is NaN. *)
Lemma toy_huge_result (ascending : bool) :
  fst (feature_importance toy_self huge_model ascending (Some zero_targets)
         toy_world)
  = Ok [("a"%string, NaN); ("b"%string, NaN)].
Proof.
  rewrite feature_importance_fst, toy_huge_raw. cbn [fst]. f_equal.
  destruct ascending; reflexivity.
Qed.

(** On the sample data a model whose predictions are one number per row is
    a valid input. *)
Lemma toy_valid (model : Model) (y_true : option Np.ndarray) (b : list float) :
  baseline_of model toy_frame y_true = Ok (Np.Arr1 b) -> length b = 2 ->
  (forall f samples, In f ["a"%string; "b"%string] -> length samples = 2 ->
     exists a, predict model (replace_column f samples toy_frame)
               = Ok (Np.Arr1 a) /\ length a = 2) ->
  valid_input toy_self model y_true toy_world toy_frame None.
Proof.
  intros Hb Hlen Hp. constructor.
  - reflexivity.
  - exact toy_wf.
  - exists (Np.Arr1 b). split; [exact Hb|]. split; [exact Hlen|].
    apply Forall_forall. intros x _. exact I.
  - intros f d Hf [col [samples [_ [Hl [_ ->]]]]].
    destruct (Hp f samples Hf Hl) as [a [Ha Hla]].
    exists (Np.Arr1 a). split; [exact Ha|]. split; [exact Hla|].
    apply Forall_forall. intros x _. exact I.
Qed.


Lemma toy_valid_column_a :
  valid_input toy_self column_a_model None toy_world toy_frame None.
Proof.
  apply (toy_valid column_a_model None [Fin 0; Fin 1]); [reflexivity..|].
  intros f samples [<-|[<-|[]]] Hl.
  - exists samples. split; [reflexivity | exact Hl].
  - exists [Fin 0; Fin 1]. split; reflexivity.
Qed.

Lemma toy_valid_huge :
  valid_input toy_self huge_model (Some zero_targets) toy_world toy_frame None.
Proof.
  apply (toy_valid huge_model (Some zero_targets) [Fin 0; Fin 0]);
    [reflexivity..|].
  intros f samples _ _. eexists. split; reflexivity.
Qed.


(** The raw scores one half and zero: sorted, summed, divided. *)
Lemma toy_column_a_sorted (ascending : bool) :
  sort_values ascending [("a"%string, Fin (1 / 2)); ("b"%string, Fin 0)]
  = if ascending
    then [("b"%string, Fin 0); ("a"%string, Fin (1 / 2))]
    else [("a"%string, Fin (1 / 2)); ("b"%string, Fin 0)].
Proof.
  unfold sort_values. cbn [filter snd is_nan negb]. unfold sort_by.
  destruct ascending; cbn [fold_right insert_sorted snd fleb].
  - destruct (Rle_dec (1 / 2) 0) as [H|_]; [lra | reflexivity].
  - destruct (Rle_dec 0 (1 / 2)) as [_|H]; [reflexivity | lra].
Qed.

Lemma toy_column_a_sum (ascending : bool) :
  series_sum
    (sort_values ascending [("a"%string, Fin (1 / 2)); ("b"%string, Fin 0)])
  = Fin (1 / 2).
Proof.
  rewrite toy_column_a_sorted. unfold series_sum, Np.sum.
  destruct ascending; cbn [map snd filter is_nan negb fold_left];
    rewrite !fadd_small by lra; f_equal; lra.
Qed.

Lemma toy_column_a_result (ascending : bool) :
  fst (feature_importance toy_self column_a_model ascending None toy_world)
  = Ok (if ascending
        then [("b"%string, Fin 0); ("a"%string, Fin 1)]
        else [("a"%string, Fin 1); ("b"%string, Fin 0)]).
Proof.
  rewrite feature_importance_fst, toy_column_a_raw. cbn [fst]. f_equal.
  unfold normalize, pd_Series. rewrite toy_column_a_sum, toy_column_a_sorted.
  assert (E0 : fdiv (Fin 0) (Fin (1 / 2)) = Fin 0).
  { apply fdiv_small; [lra | field | lra]. }
  assert (E1 : fdiv (Fin (1 / 2)) (Fin (1 / 2)) = Fin 1).
  { apply fdiv_small; [lra | field | lra]. }
  destruct ascending; unfold series_div; cbn [map fst snd];
    rewrite E0, E1; reflexivity.
Qed.

Lemma toy_constant_result :
  fst (feature_importance toy_self constant_model true None toy_world)
  = Ok (normalize true [("a"%string, Fin 0); ("b"%string, Fin 0)]).
Proof.
  destruct toy_constant_run as [w' [Hrun _]].
  rewrite feature_importance_fst, Hrun. reflexivity.
Qed.

(** ** The claims *)

(** C1.  On a well-formed data set whose baseline has one row per data row,
    the raw scores computed by [feature_importance] are the scores of the
    specification: each feature is scored on the unperturbed data set with
    only that feature's column replaced by samples drawn from it, and its
    score is the mean, across the prediction-output columns, of the standard
    deviation across rows of the predictions there minus the baseline. *)
Theorem raw_score_is_mean_of_std (self : FeatureImportance) (model : Model)
    (y_true : option Np.ndarray) (w : World) (fr : Frame) (b : Np.ndarray) :
  nth_error (heap w) (data (data_set self)) = Some fr ->
  wf_dataset (data_set self) fr ->
  baseline_of model fr y_true = Ok b ->
  Np.shape0 b = length (frame_index fr) ->
  fst (raw_importances self model y_true w)
  = spec_scores model fr b (length (frame_index fr))
      (feature_ids (data_set self)) (random_state w) [] /\
  (NoDup (feature_ids (data_set self)) ->
   forall raw, fst (raw_importances self model y_true w) = Ok raw ->
   forall f, In f (feature_ids (data_set self)) ->
     exists score, assoc_get f raw = Some score /\
                   scored_as model fr b f score).
Proof.
  intros Hheap Hwf Hbase Hshape.
  destruct (raw_importances_run self model y_true w fr b Hheap Hwf Hbase Hshape)
    as [h' [rs' [calls [Hrun _]]]].
  rewrite Hrun. simpl. split; [reflexivity|].
  intros Hnd raw Hraw f Hf.
  apply (spec_scores_lookup model fr b (feature_ids (data_set self)) Hnd
           (proj2 Hwf) (random_state w) [] raw Hraw f).
  exact Hf.
Qed.

Lemma raw_score_is_mean_of_std_witness :
  fst (raw_importances toy_self column_a_model None toy_world)
  = spec_scores column_a_model toy_frame (Np.Arr1 [Fin 0; Fin 1]) 2
      ["a"%string; "b"%string] (random_state toy_world) [] /\
  (NoDup ["a"%string; "b"%string] ->
   forall raw,
     fst (raw_importances toy_self column_a_model None toy_world) = Ok raw ->
     forall f, In f ["a"%string; "b"%string] ->
       exists score, assoc_get f raw = Some score /\
                     scored_as column_a_model toy_frame
                       (Np.Arr1 [Fin 0; Fin 1]) f score).
Proof.
  exact (raw_score_is_mean_of_std toy_self column_a_model None toy_world
           toy_frame (Np.Arr1 [Fin 0; Fin 1]) toy_heap toy_wf eq_refl eq_refl).
Defined.

(** C2.  A round of the loop that starts with the working copy equal to the
    data set and completes leaves the heap as it found it, so the copy is
    again the unperturbed data set when the next feature is perturbed; a call
    that completes on a well-formed data set leaves the copy equal to the
    data set; and whatever happens, every frame that existed before the call,
    the data set's own among them, is unchanged after it. *)
Theorem working_copy_private_and_restored (self : FeatureImportance)
    (model : Model) (ascending : bool) (y_true : option Np.ndarray)
    (w : World) :
  (forall copy n base f imps imps' w1 w2 fr,
     nth_error (heap w1) (data (data_set self)) = Some fr ->
     nth_error (heap w1) (data copy) = Some fr ->
     data copy <> data (data_set self) ->
     perturb_and_score self model copy n base f imps w1 = (Ok imps', w2) ->
     heap w2 = heap w1 /\ nth_error (heap w2) (data copy) = Some fr) /\
  (forall fr b s,
     nth_error (heap w) (data (data_set self)) = Some fr ->
     wf_dataset (data_set self) fr ->
     baseline_of model fr y_true = Ok b ->
     Np.shape0 b = length (frame_index fr) ->
     fst (feature_importance self model ascending y_true w) = Ok s ->
     heap (snd (feature_importance self model ascending y_true w))
     = heap w ++ [fr]) /\
  (forall l, l < length (heap w) ->
     nth_error (heap (snd (feature_importance self model ascending y_true w))) l
     = nth_error (heap w) l).
Proof.
  split; [|split].
  - intros copy n base f imps imps' w1 w2 fr Hself Hcopy Hne Hrun.
    pose proof (round_restores self model copy n base f imps imps' w1 w2 fr
                  Hself Hcopy Hne Hrun) as Hheap.
    split; [exact Hheap|]. rewrite Hheap. exact Hcopy.
  - intros fr b s Hheap Hwf Hbase Hshape Hs.
    rewrite feature_importance_snd. rewrite feature_importance_fst in Hs.
    destruct (raw_importances_run self model y_true w fr b Hheap Hwf Hbase
                Hshape) as [h' [rs' [calls [Hrun [_ [_ Hok]]]]]].
    rewrite Hrun in Hs |- *. simpl in Hs |- *.
    destruct (spec_scores model fr b (length (frame_index fr))
                (feature_ids (data_set self)) (random_state w) [])
      as [d|e]; [|discriminate].
    apply (Hok d eq_refl).
  - intros l Hl. rewrite feature_importance_snd.
    apply raw_importances_frame. exact Hl.
Qed.

Lemma working_copy_private_and_restored_witness :
  (heap (snd (perturb_and_score toy_self constant_model toy_copy 2
                (Np.Arr1 [Fin 0; Fin 0]) "a"%string [] toy_world_in_loop))
   = heap toy_world_in_loop) /\
  (heap (snd (feature_importance toy_self constant_model true None toy_world))
   = [toy_frame; toy_frame]) /\
  (nth_error
     (heap (snd (feature_importance toy_self constant_model true None
                   toy_world))) 0
   = Some toy_frame).
Proof.
  destruct (working_copy_private_and_restored toy_self constant_model true
              None toy_world) as [Hround [Hcall Hframe]].
  split; [|split].
  - assert (Hrun : exists imps' w2,
              perturb_and_score toy_self constant_model toy_copy 2
                (Np.Arr1 [Fin 0; Fin 0]) "a"%string [] toy_world_in_loop
              = (Ok imps', w2)).
    { pose proof (perturb_and_score_run toy_self constant_model toy_copy
                    (Np.Arr1 [Fin 0; Fin 0]) "a"%string [] toy_world_in_loop
                    toy_frame [Fin 0; Fin 1] eq_refl eq_refl
                    ltac:(discriminate) eq_refl eq_refl) as H.
      cbv zeta in H. rewrite constant_model_score in H.
      eexists _, _. exact H. }
    destruct Hrun as [imps' [w2 Hrun]]. rewrite Hrun.
    apply (Hround toy_copy 2 (Np.Arr1 [Fin 0; Fin 0]) "a"%string [] imps'
             toy_world_in_loop w2 toy_frame eq_refl eq_refl
             ltac:(discriminate) Hrun).
  - destruct toy_constant_run as [w' [Hrun _]].
    apply (Hcall toy_frame (Np.Arr1 [Fin 0; Fin 0])
             (normalize true [("a"%string, Fin 0); ("b"%string, Fin 0)])
             toy_heap toy_wf eq_refl eq_refl).
    rewrite feature_importance_fst, Hrun. reflexivity.
  - apply (Hframe 0). simpl. lia.
Defined.




(** C4.  For a valid input the method returns a series whose keys are
    exactly the feature identifiers of the data set. *)
Theorem keys_are_feature_ids (self : FeatureImportance) (model : Model)
    (ascending : bool) (y_true : option Np.ndarray) (w : World) (fr : Frame)
    (sh : option nat) :
  valid_input self model y_true w fr sh ->
  exists s,
    fst (feature_importance self model ascending y_true w) = Ok s /\
    forall k, In k (map fst s) <-> In k (feature_ids (data_set self)).
Proof.
  intros V.
  destruct (raw_importances_valid self model y_true w fr sh V)
    as [raw [w' [Hrun [_ Hkeys]]]].
  exists (normalize ascending raw). rewrite feature_importance_fst, Hrun.
  split; [reflexivity|]. intros k. rewrite normalize_In_key. apply Hkeys.
Qed.

Lemma keys_are_feature_ids_witness :
  exists s,
    fst (feature_importance toy_self column_a_model false None toy_world)
    = Ok s /\
    forall k, In k (map fst s) <-> In k ["a"%string; "b"%string].
Proof.
  exact (keys_are_feature_ids toy_self column_a_model false None toy_world
           toy_frame None toy_valid_column_a).
Defined.




(** Neither can the condition that the raw scores be finite be dropped: the
    model of huge predictions has raw scores that are not zero, and the
    scores returned are NaN again. *)
Lemma infinite_scores_not_in_order :
  valid_input toy_self huge_model (Some zero_targets) toy_world toy_frame
    None /\
  fst (raw_importances toy_self huge_model (Some zero_targets) toy_world)
  = Ok [("a"%string, PInf); ("b"%string, PInf)] /\
  fst (feature_importance toy_self huge_model true (Some zero_targets)
         toy_world)
  = Ok [("a"%string, NaN); ("b"%string, NaN)] /\
  ~ scores_in_order true [NaN; NaN].
Proof.
  split; [exact toy_valid_huge|]. split; [exact toy_huge_raw|].
  split; [apply toy_huge_result|].
  unfold scores_in_order. intros H. apply Sorted_inv in H.
  destruct H as [_ H]. inversion H as [|? ? Hle]; subst.
  unfold fle in Hle. simpl in Hle. discriminate.
Qed.

(** C6.  Given targets are the baseline, and then no call to [predict] is
    made on the data set's own frame: every call is on the working copy.
    Without targets the baseline is [predict] on the data set's frame, and
    that call comes first. *)
Theorem y_true_replaces_baseline (self : FeatureImportance) (model : Model)
    (ascending : bool) (w : World) (fr : Frame) :
  nth_error (heap w) (data (data_set self)) = Some fr ->
  wf_dataset (data_set self) fr ->
  (forall y, Np.shape0 y = length (frame_index fr) ->
     fst (raw_importances self model (Some y) w)
     = spec_scores model fr y (length (frame_index fr))
         (feature_ids (data_set self)) (random_state w) [] /\
     exists calls,
       predict_calls (snd (feature_importance self model ascending (Some y) w))
       = predict_calls w ++ calls /\
       Forall (fun c => fst c <> data (data_set self)) calls) /\
  (forall b, predict model fr = Ok b ->
     Np.shape0 b = length (frame_index fr) ->
     fst (raw_importances self model None w)
     = spec_scores model fr b (length (frame_index fr))
         (feature_ids (data_set self)) (random_state w) [] /\
     exists calls,
       predict_calls (snd (feature_importance self model ascending None w))
       = predict_calls w ++ (data (data_set self), fr) :: calls /\
       Forall (fun c => fst c <> data (data_set self)) calls).
Proof.
  intros Hheap Hwf.
  assert (Hlt : data (data_set self) < length (heap w)).
  { apply nth_error_Some. congruence. }
  assert (Hfresh : forall calls : list (loc * Frame),
            Forall (fun c => fst c = length (heap w)) calls ->
            Forall (fun c => fst c <> data (data_set self)) calls).
  { intros calls H. eapply Forall_impl; [|exact H]. cbv beta. intros c Hc E.
    pose proof (eq_trans (eq_sym E) Hc) as E'. rewrite E' in Hlt.
    exact (Nat.lt_irrefl _ Hlt). }
  split.
  - intros y Hshape.
    destruct (raw_importances_run self model (Some y) w fr y Hheap Hwf eq_refl
                Hshape) as [h' [rs' [calls [Hrun [_ [Hcalls _]]]]]].
    rewrite feature_importance_snd, Hrun. simpl. split; [reflexivity|].
    exists calls. split; [reflexivity | apply Hfresh; exact Hcalls].
  - intros b Hb Hshape.
    destruct (raw_importances_run self model None w fr b Hheap Hwf Hb Hshape)
      as [h' [rs' [calls [Hrun [_ [Hcalls _]]]]]].
    rewrite feature_importance_snd, Hrun. simpl. split; [reflexivity|].
    exists calls. split; [reflexivity | apply Hfresh; exact Hcalls].
Qed.

Lemma y_true_replaces_baseline_witness :
  (forall y, Np.shape0 y = 2 ->
     fst (raw_importances toy_self constant_model (Some y) toy_world)
     = spec_scores constant_model toy_frame y 2 ["a"%string; "b"%string]
         (random_state toy_world) [] /\
     exists calls,
       predict_calls
         (snd (feature_importance toy_self constant_model true (Some y)
                 toy_world))
       = [] ++ calls /\
       Forall (fun c => fst c <> 0) calls) /\
  (forall b, Ok (Np.Arr1 [Fin 0; Fin 0]) = Ok b ->
     Np.shape0 b = 2 ->
     fst (raw_importances toy_self constant_model None toy_world)
     = spec_scores constant_model toy_frame b 2 ["a"%string; "b"%string]
         (random_state toy_world) [] /\
     exists calls,
       predict_calls
         (snd (feature_importance toy_self constant_model true None toy_world))
       = [] ++ (0, toy_frame) :: calls /\
       Forall (fun c => fst c <> 0) calls).
Proof.
  exact (y_true_replaces_baseline toy_self constant_model true toy_world
           toy_frame toy_heap toy_wf).
Defined.

(** C7, as amended.  With no targets given and a model that returns the
    same finite array whatever the data, on a data set with at least one row,
    every raw score is zero, no exception is raised, and every feature gets
    the score NaN. *)
Theorem constant_predict_degenerate (self : FeatureImportance) (model : Model)
    (ascending : bool) (w : World) (fr : Frame) (b : Np.ndarray)
    (sh : option nat) :
  nth_error (heap w) (data (data_set self)) = Some fr ->
  wf_dataset (data_set self) fr ->
  1 <= length (frame_index fr) ->
  (forall d, predict model d = Ok b) ->
  array_ok (length (frame_index fr)) sh b ->
  exists raw s,
    fst (raw_importances self model None w) = Ok raw /\
    Forall (fun kv => snd kv = Fin 0) raw /\
    fst (feature_importance self model ascending None w) = Ok s /\
    Forall (fun kv => snd kv = NaN) s /\
    (forall k, In k (map fst s) <-> In k (feature_ids (data_set self))).
Proof.
  intros Hheap Hwf Hn Hp Hb.
  destruct (raw_importances_run self model None w fr b Hheap Hwf (Hp fr)
              (array_ok_shape0 _ _ _ Hb)) as [h' [rs' [calls [Hrun _]]]].
  destruct (spec_scores_all is_zero model fr b (length (frame_index fr))
              (feature_ids (data_set self))
              (fun f col samples _ _ _ _ =>
                 spec_score_constant model fr b sh f samples Hn Hb Hp)
              (proj2 Hwf) (random_state w) [] (Forall_nil _))
    as [raw [Hraw [Hz Hkeys]]].
  rewrite Hraw in Hrun.
  exists raw, (normalize ascending raw).
  rewrite feature_importance_fst, Hrun. simpl.
  split; [reflexivity|]. split; [exact Hz|]. split; [reflexivity|].
  split; [apply normalize_zero; exact Hz|].
  intros k. rewrite normalize_In_key, Hkeys. simpl. tauto.
Qed.

Lemma constant_predict_degenerate_witness :
  exists raw s,
    fst (raw_importances toy_self constant_model None toy_world) = Ok raw /\
    Forall (fun kv => snd kv = Fin 0) raw /\
    fst (feature_importance toy_self constant_model true None toy_world)
    = Ok s /\
    Forall (fun kv => snd kv = NaN) s /\
    (forall k, In k (map fst s) <-> In k ["a"%string; "b"%string]).
Proof.
  apply (constant_predict_degenerate toy_self constant_model true toy_world
           toy_frame (Np.Arr1 [Fin 0; Fin 0]) None toy_heap toy_wf).
  - simpl; lia.
  - reflexivity.
  - simpl. repeat constructor.
Defined.

(** C8, as amended.  A call that completes invokes [predict] once per
    feature, and once more for the baseline when no targets are given. *)
Theorem predict_call_count (self : FeatureImportance) (model : Model)
    (ascending : bool) (y_true : option Np.ndarray) (w : World) (fr : Frame)
    (b : Np.ndarray) (s : Series) :
  nth_error (heap w) (data (data_set self)) = Some fr ->
  wf_dataset (data_set self) fr ->
  baseline_of model fr y_true = Ok b ->
  Np.shape0 b = length (frame_index fr) ->
  fst (feature_importance self model ascending y_true w) = Ok s ->
  length (predict_calls (snd (feature_importance self model ascending y_true w)))
  = length (predict_calls w) + length (feature_ids (data_set self))
    + match y_true with None => 1 | Some _ => 0 end.
Proof.
  intros Hheap Hwf Hbase Hshape Hs.
  rewrite feature_importance_snd. rewrite feature_importance_fst in Hs.
  destruct (raw_importances_run self model y_true w fr b Hheap Hwf Hbase
              Hshape) as [h' [rs' [calls [Hrun [_ [_ Hok]]]]]].
  rewrite Hrun in Hs |- *. simpl in Hs |- *.
  destruct (spec_scores model fr b (length (frame_index fr))
              (feature_ids (data_set self)) (random_state w) [])
    as [d|e]; [|discriminate].
  destruct (Hok d eq_refl) as [_ Hlen].
  rewrite !length_app, Hlen. destruct y_true; simpl; lia.
Qed.

Lemma predict_call_count_witness :
  length (predict_calls
            (snd (feature_importance toy_self constant_model true None
                    toy_world)))
  = 0 + 2 + 1.
Proof.
  exact (predict_call_count toy_self constant_model true None toy_world
           toy_frame (Np.Arr1 [Fin 0; Fin 0]) _ toy_heap toy_wf eq_refl
           eq_refl toy_constant_result).
Defined.

(** C8, as stated, fails.  The sample data set has two features; a call
    without targets completes and has invoked [predict] three times. *)
Lemma baseline_call_is_extra :
  length (feature_ids (data_set toy_self)) = 2 /\
  predict_calls toy_world = [] /\
  (exists s,
     fst (feature_importance toy_self constant_model true None toy_world)
     = Ok s) /\
  length (predict_calls
            (snd (feature_importance toy_self constant_model true None
                    toy_world))) = 3.
Proof.
  split; [reflexivity|]. split; [reflexivity|]. split.
  - eexists. exact toy_constant_result.
  - rewrite feature_importance_snd.
    destruct toy_constant_run as [w' [Hrun [_ Hcalls]]].
    rewrite Hrun. exact Hcalls.
Qed.

(** C9.  On a data set without features the method returns the empty
    series, provided the baseline can be had: targets are given, or
    [predict] accepts the data. *)
Theorem zero_features_empty_result (self : FeatureImportance) (model : Model)
    (ascending : bool) (y_true : option Np.ndarray) (w : World) (fr : Frame)
    (b : Np.ndarray) :
  nth_error (heap w) (data (data_set self)) = Some fr ->
  feature_ids (data_set self) = [] ->
  baseline_of model fr y_true = Ok b ->
  fst (feature_importance self model ascending y_true w) = Ok [].
Proof.
  intros Hheap Hnil Hbase.
  unfold feature_importance, raw_importances, bind, ret, predict_on,
    read_frame, DataManager_init.
  rewrite Hnil. destruct y_true as [y|]; simpl in Hbase.
  - rewrite Hheap. reflexivity.
  - unfold bind. rewrite Hheap, Hbase. cbn [heap]. rewrite Hheap. reflexivity.
Qed.

Lemma zero_features_empty_result_witness :
  fst (feature_importance bare_self constant_model true None bare_world)
  = Ok [].
Proof.
  exact (zero_features_empty_result bare_self constant_model true None
           bare_world bare_frame (Np.Arr1 [Fin 0; Fin 0]) eq_refl eq_refl
           eq_refl).
Defined.

(** C7, as stated, fails.  The model that returns feature [a] unchanged is a
    function of the data like any other; on the sample data the raw score of
    [a] is one half. *)
Lemma returning_a_feature_scores_nonzero :
  fst (raw_importances toy_self column_a_model None toy_world)
  = Ok [("a"%string, Fin (1 / 2)); ("b"%string, Fin 0)] /\
  ~ Forall (fun kv => snd kv = Fin 0)
      [("a"%string, Fin (1 / 2)); ("b"%string, Fin 0)].
Proof.
  split; [exact toy_column_a_raw|].
  intros H. apply Forall_inv in H. simpl in H. injection H as H. lra.
Qed.

(** C10.  When importing pyplot fails with an [ImportError] the method
    raises [MatplotlibUnavailableError], and when it fails with a
    [RuntimeError] it raises [MatplotlibDisplayError]; in both cases the
    world is as before the call, so nothing was computed and [predict] was
    not called.  Conversely, as long as neither the import, nor [predict],
    nor the plotting calls raise these two errors themselves, the method
    raises them in those two cases only. *)
Theorem plot_import_failures (mpl : Matplotlib) (COLORS : list Color)
    (self : FeatureImportance) (predict_fn : Model)
    (y_true : option Np.ndarray) (ascending : bool) (ax : option Axes)
    (w : World) :
  (import_pyplot mpl = Raise ImportError ->
   plot_feature_importance mpl COLORS self predict_fn y_true ascending ax w
   = (Raise (MatplotlibUnavailableError
               "Matplotlib is required but unavailable on your system."), w)) /\
  (import_pyplot mpl = Raise RuntimeError ->
   plot_feature_importance mpl COLORS self predict_fn y_true ascending ax w
   = (Raise (MatplotlibDisplayError "Matplotlib unable to open display"), w)) /\
  ((forall e, import_pyplot mpl = Raise e -> ~ is_matplotlib_error e) ->
   (forall d e, predict predict_fn d = Raise e -> ~ is_matplotlib_error e) ->
   (forall e, subplots mpl = Raise e -> ~ is_matplotlib_error e) ->
   (forall s a c e, plot_barh mpl s a c = Raise e -> ~ is_matplotlib_error e) ->
   forall e,
     fst (plot_feature_importance mpl COLORS self predict_fn y_true ascending
            ax w) = Raise e ->
     (forall msg, e = MatplotlibUnavailableError msg ->
        import_pyplot mpl = Raise ImportError) /\
     (forall msg, e = MatplotlibDisplayError msg ->
        import_pyplot mpl = Raise RuntimeError)).
Proof.
  split; [|split].
  { intros H. unfold plot_feature_importance. rewrite H. reflexivity. }
  { intros H. unfold plot_feature_importance. rewrite H. reflexivity. }
  intros Himp Hpred Hsub Hbar e He.
    assert (Hrest : raises_only (fun e => ~ is_matplotlib_error e)
              (importances <-
                 feature_importance self predict_fn ascending y_true ;;
               fa <- match ax with
                     | None => lift (subplots mpl)
                     | Some a => ret (figure a, a)
                     end ;;
               color <- match COLORS with
                        | [] => raise StopIteration
                        | c :: _ => ret c
                        end ;;
               (if ascending
                then lift (plot_barh mpl (sort_values false importances)
                             (snd fa) color)
                else lift (plot_barh mpl (sort_values true importances)
                             (snd fa) color)) ;;;
               ret fa)).
    { apply raises_only_bind.
      - apply (raises_only_weaken _ (own_or_predict predict_fn));
          [|apply feature_importance_raises].
        intros e0 [->|[->|[->|[d Hd]]]]; simpl; try tauto.
        apply (Hpred d e0 Hd).
      - intros imps. apply raises_only_bind.
        + destruct ax; [apply raises_only_ret|].
          apply raises_only_lift. exact Hsub.
        + intros fa. apply raises_only_bind.
          * destruct COLORS; [|apply raises_only_ret].
            apply raises_only_raise. simpl. tauto.
          * intros color. apply raises_only_bind; [|intros u; apply raises_only_ret].
            destruct ascending; apply raises_only_lift; apply Hbar. }
    assert (Hguard : forall e0, import_pyplot mpl = Raise e0 ->
              ~ is_matplotlib_error e0 ->
              e0 <> ImportError -> e0 <> RuntimeError ->
              fst (plot_feature_importance mpl COLORS self predict_fn y_true
                     ascending ax w) = Raise e0).
    { intros e0 Hi _ H1 H2. unfold plot_feature_importance. rewrite Hi.
      destruct e0; try reflexivity; congruence. }
    destruct (import_pyplot mpl) as [u|e0] eqn:Hi.
    - unfold plot_feature_importance in He. rewrite Hi in He.
      pose proof (Hrest w e He) as Hno.
      split; intros msg ->; exfalso; apply Hno; exact I.
    - pose proof (Himp e0 eq_refl) as Hno.
      destruct e0;
        try (rewrite (Hguard _ eq_refl Hno) in He by discriminate;
             injection He as <-; split; intros msg H; discriminate H).
      + unfold plot_feature_importance in He. rewrite Hi in He.
        injection He as <-. split; intros msg H; [reflexivity | discriminate H].
      + unfold plot_feature_importance in He. rewrite Hi in He.
        injection He as <-. split; intros msg H; [discriminate H | reflexivity].
      + exfalso. apply Hno. exact I.
      + exfalso. apply Hno. exact I.
Qed.

Lemma plot_import_failures_witness :
  plot_feature_importance matplotlib_missing [] toy_self constant_model None
    true None toy_world
  = (Raise (MatplotlibUnavailableError
              "Matplotlib is required but unavailable on your system."),
     toy_world) /\
  plot_feature_importance matplotlib_headless [] toy_self constant_model None
    true None toy_world
  = (Raise (MatplotlibDisplayError "Matplotlib unable to open display"),
     toy_world) /\
  (forall e,
     fst (plot_feature_importance matplotlib_headless [] toy_self
            constant_model None true None toy_world) = Raise e ->
     (forall msg, e = MatplotlibUnavailableError msg ->
        import_pyplot matplotlib_headless = Raise ImportError) /\
     (forall msg, e = MatplotlibDisplayError msg ->
        import_pyplot matplotlib_headless = Raise RuntimeError)).
Proof.
  split; [|split].
  - apply (plot_import_failures matplotlib_missing [] toy_self constant_model
             None true None toy_world). reflexivity.
  - apply (plot_import_failures matplotlib_headless [] toy_self constant_model
             None true None toy_world). reflexivity.
  - apply (plot_import_failures matplotlib_headless [] toy_self constant_model
             None true None toy_world).
    + intros e [= <-]. simpl. tauto.
    + intros d e H. discriminate.
    + intros e [= <-]. simpl. tauto.
    + intros s a c e [= <-]. simpl. tauto.
Defined.

(** ** Further properties of the method *)

(** The call up to the loop: the baseline is taken, the working copy is a
    new frame equal to the data set, and the loop starts from there. *)
Lemma raw_importances_unfold (self : FeatureImportance) (model : Model)
    (y_true : option Np.ndarray) (w : World) (fr : Frame) (b : Np.ndarray) :
  nth_error (heap w) (data (data_set self)) = Some fr ->
  index (data_set self) = frame_index fr ->
  baseline_of model fr y_true = Ok b ->
  raw_importances self model y_true w
  = for_features self model
      {| data := length (heap w);
         feature_ids := feature_ids (data_set self);
         index := index (data_set self) |}
      (Np.shape0 b) b (feature_ids (data_set self)) []
      {| heap := heap w ++ [fr];
         random_state := random_state w;
         predict_calls := predict_calls w ++ baseline_calls self fr y_true |}.
Proof.
  intros Hheap Hidx Hbase.
  assert (Hfr : {| frame_index := index (data_set self);
                   frame_columns := frame_columns fr |} = fr).
  { rewrite Hidx. destruct fr; reflexivity. }
  unfold raw_importances. destruct y_true as [y|]; simpl in Hbase.
  - injection Hbase as ->. unfold bind, ret, DataManager_init.
    cbv beta iota zeta. rewrite Hheap, Hfr. simpl. rewrite app_nil_r.
    reflexivity.
  - unfold predict_on, read_frame, DataManager_init. unfold bind.
    rewrite Hheap, Hbase. cbn [heap random_state predict_calls].
    rewrite Hheap, Hfr. reflexivity.
Qed.

(** X1.  Targets equal to the model's own predictions on the data change
    nothing: with the same random state, the call with [y_true] set to
    [predict] of the data returns what the call without [y_true] returns. *)
Theorem supplied_baseline_same_result (self : FeatureImportance)
    (model : Model) (ascending : bool) (w : World) (fr : Frame)
    (b : Np.ndarray) :
  nth_error (heap w) (data (data_set self)) = Some fr ->
  wf_dataset (data_set self) fr ->
  predict model fr = Ok b ->
  Np.shape0 b = length (frame_index fr) ->
  fst (feature_importance self model ascending (Some b) w)
  = fst (feature_importance self model ascending None w).
Proof.
  intros Hheap Hwf Hb Hshape. rewrite !feature_importance_fst.
  destruct (raw_importances_run self model (Some b) w fr b Hheap Hwf eq_refl
              Hshape) as [h1 [r1 [c1 [Hrun1 _]]]].
  destruct (raw_importances_run self model None w fr b Hheap Hwf Hb Hshape)
    as [h2 [r2 [c2 [Hrun2 _]]]].
  rewrite Hrun1, Hrun2. reflexivity.
Qed.

Lemma supplied_baseline_same_result_witness :
  fst (feature_importance toy_self column_a_model true
         (Some (Np.Arr1 [Fin 0; Fin 1])) toy_world)
  = fst (feature_importance toy_self column_a_model true None toy_world).
Proof.
  exact (supplied_baseline_same_result toy_self column_a_model true toy_world
           toy_frame (Np.Arr1 [Fin 0; Fin 1]) toy_heap toy_wf eq_refl eq_refl).
Defined.

(** X2.  When no targets are given and [predict] fails on the data, the
    call fails with that very exception after this one call to [predict]:
    no working copy has been made and no random number drawn. *)
Theorem baseline_failure_propagates (self : FeatureImportance) (model : Model)
    (ascending : bool) (w : World) (fr : Frame) (e : exn) :
  nth_error (heap w) (data (data_set self)) = Some fr ->
  predict model fr = Raise e ->
  feature_importance self model ascending None w
  = (Raise e,
     {| heap := heap w;
        random_state := random_state w;
        predict_calls := predict_calls w ++ [(data (data_set self), fr)] |}).
Proof.
  intros Hheap He.
  unfold feature_importance, raw_importances, bind at 1 2.
  unfold predict_on, read_frame, bind. rewrite Hheap, He. reflexivity.
Qed.

Lemma baseline_failure_propagates_witness :
  feature_importance toy_self failing_model true None toy_world
  = (Raise (OtherError "model failure"),
     {| heap := [toy_frame];
        random_state := random_state toy_world;
        predict_calls := [(0, toy_frame)] |}).
Proof.
  exact (baseline_failure_propagates toy_self failing_model true toy_world
           toy_frame (OtherError "model failure") eq_refl eq_refl).
Defined.

Lemma spec_scores_raise (model : Model) (fr : Frame) (b : Np.ndarray)
    (n : nat) (features : list fid) :
  Forall (column_ok fr) features ->
  forall rs imps e,
    spec_scores model fr b n features rs imps = Raise e ->
    round_failure model fr b features e.
Proof.
  intros Hcols. induction Hcols as [|f features [col [Hcol _]] _ IH];
    intros rs imps e; simpl; [discriminate|].
  rewrite Hcol. destruct (draws col n rs) as [samples rs'].
  destruct (spec_score model fr b f samples) as [v|e0] eqn:Hv.
  - intros H. destruct (IH _ _ _ H) as [f' [s' [Hin Hwhy]]].
    exists f', s'. split; [right; exact Hin | exact Hwhy].
  - intros [= <-]. exists f, samples. split; [left; reflexivity|].
    unfold spec_score in Hv.
    destruct (predict model (replace_column f samples fr)) as [a|e1];
      [|left; injection Hv as ->; reflexivity].
    destruct (Np.subtract a b) eqn:Hs; [discriminate|].
    injection Hv as <-. right. split; [reflexivity|].
    exists a. split; [reflexivity | exact Hs].
Qed.

(** X3.  On a well-formed data set, once the baseline is there, the call
    can fail in two ways only: [predict] raised on the data with one feature
    perturbed, and that exception is passed on as it is; or [predict]
    returned an array that cannot be subtracted from the baseline, which is a
    [ValueError]. *)
Theorem failures_come_from_predict_or_shapes (self : FeatureImportance)
    (model : Model) (ascending : bool) (y_true : option Np.ndarray)
    (w : World) (fr : Frame) (b : Np.ndarray) (e : exn) :
  nth_error (heap w) (data (data_set self)) = Some fr ->
  wf_dataset (data_set self) fr ->
  baseline_of model fr y_true = Ok b ->
  Np.shape0 b = length (frame_index fr) ->
  fst (feature_importance self model ascending y_true w) = Raise e ->
  round_failure model fr b (feature_ids (data_set self)) e.
Proof.
  intros Hheap Hwf Hbase Hshape He. rewrite feature_importance_fst in He.
  destruct (raw_importances_run self model y_true w fr b Hheap Hwf Hbase
              Hshape) as [h' [rs' [calls [Hrun _]]]].
  rewrite Hrun in He. cbn [fst] in He.
  destruct (spec_scores model fr b (length (frame_index fr))
              (feature_ids (data_set self)) (random_state w) [])
    as [d|e0] eqn:Hs; [discriminate|].
  injection He as <-.
  apply (spec_scores_raise model fr b _ _ (proj2 Hwf) _ _ _ Hs).
Qed.

Lemma toy_failing_run :
  fst (feature_importance toy_self failing_model true (Some toy_y_true)
         toy_world) = Raise (OtherError "model failure").
Proof.
  rewrite feature_importance_fst.
  destruct (raw_importances_run toy_self failing_model (Some toy_y_true)
              toy_world toy_frame toy_y_true toy_heap toy_wf eq_refl eq_refl)
    as [h' [rs' [calls [Hrun _]]]].
  rewrite Hrun. reflexivity.
Qed.

Lemma failures_come_from_predict_or_shapes_witness :
  round_failure failing_model toy_frame toy_y_true ["a"%string; "b"%string]
    (OtherError "model failure").
Proof.
  exact (failures_come_from_predict_or_shapes toy_self failing_model true
           (Some toy_y_true) toy_world toy_frame toy_y_true
           (OtherError "model failure") toy_heap toy_wf eq_refl eq_refl
           toy_failing_run).
Defined.

Lemma for_features_calls (self : FeatureImportance) (model : Model)
    (copy : DataManager) (base : Np.ndarray) (fr : Frame)
    (features : list fid) :
  data copy <> data (data_set self) ->
  Forall (column_ok fr) features ->
  forall imps w d w',
    nth_error (heap w) (data (data_set self)) = Some fr ->
    nth_error (heap w) (data copy) = Some fr ->
    for_features self model copy (length (frame_index fr)) base features imps w
    = (Ok d, w') ->
    exists calls,
      predict_calls w' = predict_calls w ++ calls /\
      Forall2 (perturbed_call model fr (data copy)) features calls.
Proof.
  intros Hne Hcols. induction Hcols as [|f features [col [Hcol Hlen]] _ IH];
    intros imps w d w' Hself Hcopy.
  - simpl. unfold ret. intros [= _ <-]. exists [].
    rewrite app_nil_r. split; [reflexivity | constructor].
  - simpl. unfold bind.
    rewrite (perturb_and_score_run self model copy base f imps w fr col
               Hself Hcopy Hne Hcol Hlen).
    pose proof (length_draws col (length (frame_index fr)) (random_state w))
      as Hl.
    assert (Hincl : incl (fst (draws col (length (frame_index fr))
                                 (random_state w))) col).
    { destruct col as [|c0 col'].
      - simpl in Hlen. rewrite <- Hlen. simpl. intros x [].
      - apply draws_incl. discriminate. }
    destruct (draws col (length (frame_index fr)) (random_state w))
      as [samples rs1]. cbn [fst snd] in *. cbv zeta.
    destruct (spec_score model fr base f samples) as [v|e] eqn:Hv;
      [|discriminate].
    intros Hrun. apply IH in Hrun; [|exact Hself | exact Hcopy].
    destruct Hrun as [calls [Hcalls Hall]]. cbn [predict_calls] in Hcalls.
    exists ((data copy, replace_column f samples fr) :: calls). split.
    + rewrite Hcalls, <- app_assoc. reflexivity.
    + constructor; [|exact Hall]. split; [reflexivity|].
      unfold spec_score in Hv.
      destruct (predict model (replace_column f samples fr)) as [a|e] eqn:Hp;
        [|discriminate].
      exists col, samples, a. cbn [snd]. repeat split; assumption.
Qed.

(** X4.  In a call that completes on a well-formed data set, the calls to
    [predict] after the baseline correspond one to one, in the order of the
    feature identifiers, to the features: the call for a feature receives the
    working copy, holding the data set with that feature's column alone
    replaced, by one value per row drawn from the same column. *)
Theorem predict_sees_one_perturbed_column (self : FeatureImportance)
    (model : Model) (ascending : bool) (y_true : option Np.ndarray)
    (w : World) (fr : Frame) (b : Np.ndarray) (s : Series) :
  nth_error (heap w) (data (data_set self)) = Some fr ->
  wf_dataset (data_set self) fr ->
  baseline_of model fr y_true = Ok b ->
  Np.shape0 b = length (frame_index fr) ->
  fst (feature_importance self model ascending y_true w) = Ok s ->
  exists calls,
    predict_calls (snd (feature_importance self model ascending y_true w))
    = predict_calls w ++ baseline_calls self fr y_true ++ calls /\
    Forall2 (perturbed_call model fr (length (heap w)))
      (feature_ids (data_set self)) calls.
Proof.
  intros Hheap [Hidx Hcols] Hbase Hshape Hs.
  rewrite feature_importance_snd. rewrite feature_importance_fst in Hs.
  rewrite (raw_importances_unfold self model y_true w fr b Hheap Hidx Hbase)
    in Hs |- *.
  rewrite Hshape in Hs |- *.
  assert (Hlt : data (data_set self) < length (heap w)).
  { apply nth_error_Some. congruence. }
  set (copy := {| data := length (heap w);
                  feature_ids := feature_ids (data_set self);
                  index := index (data_set self) |}) in *.
  set (w2 := {| heap := heap w ++ [fr];
                random_state := random_state w;
                predict_calls :=
                  predict_calls w ++ baseline_calls self fr y_true |}) in *.
  assert (Hne : data copy <> data (data_set self)) by (simpl; lia).
  assert (H2self : nth_error (heap w2) (data (data_set self)) = Some fr).
  { simpl. rewrite nth_error_app1 by exact Hlt. exact Hheap. }
  assert (H2copy : nth_error (heap w2) (data copy) = Some fr).
  { simpl. rewrite nth_error_app2 by lia. rewrite Nat.sub_diag. reflexivity. }
  destruct (for_features self model copy (length (frame_index fr)) b
              (feature_ids (data_set self)) [] w2) as [[d|e] w'] eqn:Hrun;
    [|discriminate].
  destruct (for_features_calls self model copy b fr
              (feature_ids (data_set self)) Hne Hcols [] w2 d w' H2self
              H2copy Hrun) as [calls [Hc Hall]].
  exists calls. cbn [snd]. rewrite Hc. cbn [predict_calls w2].
  unfold w2. cbn [predict_calls]. rewrite <- app_assoc.
  split; [reflexivity | exact Hall].
Qed.

Lemma predict_sees_one_perturbed_column_witness :
  exists calls,
    predict_calls
      (snd (feature_importance toy_self constant_model true None toy_world))
    = [] ++ [(0, toy_frame)] ++ calls /\
    Forall2 (perturbed_call constant_model toy_frame 1)
      ["a"%string; "b"%string] calls.
Proof.
  exact (predict_sees_one_perturbed_column toy_self constant_model true None
           toy_world toy_frame (Np.Arr1 [Fin 0; Fin 0]) _ toy_heap toy_wf
           eq_refl eq_refl toy_constant_result).
Defined.

(** X5.  For a valid input the call computes a raw score for every feature
    and for nothing else, and no raw score is negative: each is a finite
    number from zero up, the positive infinity, or NaN. *)
Theorem raw_scores_not_negative (self : FeatureImportance) (model : Model)
    (y_true : option Np.ndarray) (w : World) (fr : Frame) (sh : option nat) :
  valid_input self model y_true w fr sh ->
  exists raw,
    fst (raw_importances self model y_true w) = Ok raw /\
    Forall (fun kv => not_negative (snd kv)) raw /\
    (forall k, In k (map fst raw) <-> In k (feature_ids (data_set self))).
Proof.
  intros V.
  destruct (raw_importances_valid self model y_true w fr sh V)
    as [raw [w' [Hrun [Hpos Hkeys]]]].
  exists raw. rewrite Hrun. split; [reflexivity|]. split; [|exact Hkeys].
  eapply Forall_impl; [|exact Hpos]. intros kv [H _]. exact H.
Qed.

Lemma raw_scores_not_negative_witness :
  exists raw,
    fst (raw_importances toy_self column_a_model None toy_world) = Ok raw /\
    Forall (fun kv => not_negative (snd kv)) raw /\
    (forall k, In k (map fst raw) <-> In k ["a"%string; "b"%string]).
Proof.
  exact (raw_scores_not_negative toy_self column_a_model None toy_world
           toy_frame None toy_valid_column_a).
Defined.

(** ** Further properties of the normalisation *)

(** X6.  Every feature keeps its own score: the series returned holds, up to
    order, every raw score divided by the sum of the sorted raw scores
    (line 89), under the key of its feature. *)
Theorem normalized_is_raw_over_total (self : FeatureImportance) (model : Model)
    (ascending : bool) (y_true : option Np.ndarray) (w : World)
    (raw : list (fid * float)) :
  fst (raw_importances self model y_true w) = Ok raw ->
  exists s,
    fst (feature_importance self model ascending y_true w) = Ok s /\
    Permutation s
      (map (fun kv =>
              (fst kv,
               fdiv (snd kv)
                 (series_sum (sort_values ascending (pd_Series raw)))))
         raw).
Proof.
  intros Hraw. exists (normalize ascending raw).
  rewrite feature_importance_fst, Hraw.
  split; [reflexivity|]. apply (normalize_perm ascending raw).
Qed.

Lemma normalized_is_raw_over_total_witness :
  exists s,
    fst (feature_importance toy_self column_a_model true None toy_world)
    = Ok s /\
    Permutation s
      (map (fun kv =>
              (fst kv,
               fdiv (snd kv)
                 (series_sum
                    (sort_values true
                       (pd_Series [("a"%string, Fin (1 / 2));
                                   ("b"%string, Fin 0)])))))
         [("a"%string, Fin (1 / 2)); ("b"%string, Fin 0)]).
Proof.
  exact (normalized_is_raw_over_total toy_self column_a_model true None
           toy_world _ toy_column_a_raw).
Defined.





(** ** Further properties of the plot *)

Lemma plot_after_import (mpl : Matplotlib) (COLORS : list Color)
    (self : FeatureImportance) (predict_fn : Model)
    (y_true : option Np.ndarray) (ascending : bool) (ax : option Axes)
    (w : World) (u : unit) :
  import_pyplot mpl = Ok u ->
  plot_feature_importance mpl COLORS self predict_fn y_true ascending ax w
  = bind (feature_importance self predict_fn ascending y_true)
      (draw_chart mpl COLORS ascending ax) w.
Proof.
  intros Hi. unfold plot_feature_importance. rewrite Hi. reflexivity.
Qed.

Lemma draw_chart_world (mpl : Matplotlib) (COLORS : list Color)
    (ascending : bool) (ax : option Axes) (s : Series) (w : World) :
  snd (draw_chart mpl COLORS ascending ax s w) = w.
Proof.
  unfold draw_chart, bind, lift, ret, raise.
  destruct ax as [a|]; [|destruct (subplots mpl) as [fa|e]];
    destruct COLORS as [|c rest]; destruct ascending;
    try reflexivity;
    match goal with
    | |- context [plot_barh ?m ?x ?y ?z] => destruct (plot_barh m x y z)
    end; reflexivity.
Qed.

(** X10.  Once pyplot is imported, plotting adds nothing to what the
    computation does to the world: the frames, the random state and the
    recorded calls to [predict] after [plot_feature_importance] are those
    after [feature_importance]; and when the computation fails, the plot
    fails with the same exception. *)
Theorem plot_runs_the_computation (mpl : Matplotlib) (COLORS : list Color)
    (self : FeatureImportance) (predict_fn : Model)
    (y_true : option Np.ndarray) (ascending : bool) (ax : option Axes)
    (w : World) (u : unit) :
  import_pyplot mpl = Ok u ->
  snd (plot_feature_importance mpl COLORS self predict_fn y_true ascending ax w)
  = snd (feature_importance self predict_fn ascending y_true w) /\
  (forall e,
     fst (feature_importance self predict_fn ascending y_true w) = Raise e ->
     fst (plot_feature_importance mpl COLORS self predict_fn y_true ascending
            ax w) = Raise e).
Proof.
  intros Hi.
  rewrite (plot_after_import mpl COLORS self predict_fn y_true ascending ax w
             u Hi).
  unfold bind.
  destruct (feature_importance self predict_fn ascending y_true w)
    as [[s|e] w1]; cbn [fst snd].
  - split; [apply draw_chart_world | discriminate].
  - split; [reflexivity|]. intros e0 [= <-]. reflexivity.
Qed.

Lemma plot_runs_the_computation_witness :
  snd (plot_feature_importance matplotlib_ok ["b"%string] toy_self
         failing_model None true None toy_world)
  = snd (feature_importance toy_self failing_model true None toy_world) /\
  (forall e,
     fst (feature_importance toy_self failing_model true None toy_world)
     = Raise e ->
     fst (plot_feature_importance matplotlib_ok ["b"%string] toy_self
            failing_model None true None toy_world) = Raise e).
Proof.
  exact (plot_runs_the_computation matplotlib_ok ["b"%string] toy_self
           failing_model None true None toy_world tt eq_refl).
Defined.




(** ** A feature the model does not use *)

(** X12.  A feature that the model ignores scores zero: when no targets are
    given, the feature identifiers are distinct, and [predict] returns on the
    data with that feature's column replaced, by whatever values, the finite
    array it returns on the data itself, the raw score of the feature is
    exactly zero. *)
Theorem unused_feature_scores_zero (self : FeatureImportance) (model : Model)
    (w : World) (fr : Frame) (b : Np.ndarray) (sh : option nat) (f : fid)
    (raw : list (fid * float)) :
  nth_error (heap w) (data (data_set self)) = Some fr ->
  wf_dataset (data_set self) fr ->
  NoDup (feature_ids (data_set self)) ->
  1 <= length (frame_index fr) ->
  predict model fr = Ok b ->
  array_ok (length (frame_index fr)) sh b ->
  In f (feature_ids (data_set self)) ->
  (forall samples, predict model (replace_column f samples fr) = Ok b) ->
  fst (raw_importances self model None w) = Ok raw ->
  assoc_get f raw = Some (Fin 0).
Proof.
  intros Hheap Hwf Hnd Hn Hb Hok Hf Hignore Hraw.
  destruct (raw_importances_run self model None w fr b Hheap Hwf Hb
              (array_ok_shape0 _ _ _ Hok)) as [h' [rs' [calls [Hrun _]]]].
  rewrite Hrun in Hraw. cbn [fst] in Hraw.
  destruct (spec_scores_lookup model fr b (feature_ids (data_set self)) Hnd
              (proj2 Hwf) (random_state w) [] raw Hraw f) as [Hin _].
  destruct (Hin Hf)
    as [score [Hget [col [samples [newp [delta [_ [_ [_ [Hp [Hs ->]]]]]]]]]]].
  rewrite Hget. do 2 f_equal.
  rewrite Hignore in Hp. injection Hp as <-.
  destruct (subtract_self _ _ _ Hok) as [d [Hd Hz]].
  rewrite Hd in Hs. injection Hs as <-.
  apply (score_zero _ _ _ Hn Hz).
Qed.

Lemma unused_feature_scores_zero_witness :
  assoc_get "b"%string [("a"%string, Fin (1 / 2)); ("b"%string, Fin 0)]
  = Some (Fin 0).
Proof.
  apply (unused_feature_scores_zero toy_self column_a_model toy_world
           toy_frame (Np.Arr1 [Fin 0; Fin 1]) None "b"%string _ toy_heap
           toy_wf).
  - repeat constructor; simpl; intuition discriminate.
  - simpl; lia.
  - reflexivity.
  - simpl. repeat constructor.
  - simpl. tauto.
  - intros samples. reflexivity.
  - exact toy_column_a_raw.
Defined.
